(** * Verification of the [utils] package of go-proto-danksharding-crypto

    The development embeds the functions of [utils/utils.go] over an
    explicit model of what they run on: Go slices with bounds-checked
    indexing, [uint64] arithmetic with wrap-around, IEEE-754 binary64 for
    the [math.Log2] detour taken by [Pow2], and the scalar field of
    BLS12-381 as canonical residues.  [ReduceCanonical], [BitReverseRoots]
    and [BatchFromJacobian], whose sources are missing, are modelled from
    the specification of the package. *)

From Stdlib Require Import ZArith Lia Bool List Zdivisibility Zcong.
From Stdlib Require Import Strings.Byte.
From Stdlib Require Import Floats.SpecFloat.
From stdpp Require Import base list strings.

Local Open Scope Z_scope.

(** ** Panics

    A Go function either returns or panics.  The panics that the package
    can raise are a runtime bounds failure, a failed [make], and the
    explicit [panic(msg)] calls of the source. *)

Inductive panic : Type :=
| IndexOutOfRange (index : nat) (len : nat)
| MakeSliceLenOutOfRange
| PanicMsg (msg : string).

Inductive result (A : Type) : Type :=
| Ok (a : A)
| Panicked (p : panic).

Arguments Ok {A} a.
Arguments Panicked {A} p.

#[global] Instance result_ret : MRet result := fun A a => Ok a.
#[global] Instance result_bind : MBind result := fun A B f r =>
  match r with
  | Ok a => f a
  | Panicked p => Panicked p
  end.

Definition returns {A} (r : result A) : bool :=
  match r with Ok _ => true | Panicked _ => false end.

Definition panics {A} (r : result A) : bool := negb (returns r).

(** ** Slices

    [make([]T, n)] yields [n] zero values; it panics with
    [makeslice: len out of range] on a negative length and on a length
    whose [n * sizeof(T)] bytes exceed what the allocator can address
    ([maxAlloc], 2^48 bytes on the 64-bit platforms with 48-bit heap
    addresses).  [s[i]] panics when [i] is not below [len(s)], for reads
    and writes alike. *)

Module slice.

Definition maxAlloc : Z := 2 ^ 48.

Definition make {A} (elem_size : Z) (zero : A) (n : Z) : result (list A) :=
  if (n <? 0) || (maxAlloc <? elem_size * n) then
    Panicked MakeSliceLenOutOfRange
  else Ok (replicate (Z.to_nat n) zero).

Definition get {A} (s : list A) (i : nat) : result A :=
  match s !! i with
  | Some v => Ok v
  | None => Panicked (IndexOutOfRange i (length s))
  end.

Definition set {A} (s : list A) (i : nat) (v : A) : result (list A) :=
  if decide (i < length s)%nat then Ok (<[i := v]> s)
  else Panicked (IndexOutOfRange i (length s)).

End slice.

(** ** The scalar field [fr]

    gnark-crypto's [fr.Element] is an element of the scalar field of
    BLS12-381.  An element is modelled by its canonical value, an integer in
    [[0, Modulus)]; every operation returns a canonical value. *)

Module fr.

Definition Modulus : Z :=
  0x73eda753299d7d483339d80809a1d80553bda402fffe5bfeffffffff00000001.

Definition Element : Type := Z.

(** An [Element] is an array of [Limbs] words of 64 bits: [Sizeof] bytes
    in memory. *)
Definition Limbs : Z := 4.

Definition Sizeof : Z := 8 * Limbs.

Definition valid (x : Element) : Prop := 0 <= x < Modulus.

(** The zero value of the type, as left by [make] and [var]. *)
Definition Zero : Element := 0.

Definition One : Element := 1.

Definition NewElement (v : Z) : Element := v mod Modulus.

Definition Mul (a b : Element) : Element := (a * b) mod Modulus.

Definition Square (a : Element) : Element := (a * a) mod Modulus.

Definition Equal (a b : Element) : bool := a =? b.

(** [Exp] for a positive exponent: the bits below the leading one are
    scanned from the most significant down, squaring at each and
    multiplying by the base at the set ones. *)
Fixpoint Exp_pos (x : Element) (k : positive) : Element :=
  match k with
  | xH => x
  | xO k' => Square (Exp_pos x k')
  | xI k' => Mul (Square (Exp_pos x k')) x
  end.

(** [Exp] on a non-negative exponent (the negative case inverts the base
    first and is not used by this package). *)
Definition Exp (x : Element) (k : Z) : Element :=
  match k with
  | Z0 => One
  | Zpos p => Exp_pos x p
  | Zneg _ => Zero
  end.

(** The power as a number: the residue of the integer power. *)
Definition pow (x : Element) (n : Z) : Element := (x ^ n) mod Modulus.

End fr.

(** ** [uint64] *)

Definition uint64_range (v : Z) : Prop := 0 <= v < 2 ^ 64.

Definition wrap64 (v : Z) : Z := v mod 2 ^ 64.

(** Number of set bits among the [n] low bits of [v]. *)
Fixpoint popcount (n : nat) (v : Z) : nat :=
  match n with
  | O => O
  | S n' => ((if Z.testbit v (Z.of_nat n') then 1 else 0) + popcount n' v)%nat
  end.

(** Number of set bits of a [uint64], [bits.OnesCount64]. *)
Definition OnesCount64 (v : Z) : nat := popcount 64 v.

(** ** [utils.go] *)

(** The loop [for i := 1; i < n; i++ { powers[i].Mul(&powers[i-1], &x) }],
    with [steps] the number of iterations still to run from index [i]. *)
Fixpoint ComputePowers_loop (x : fr.Element) (steps : nat) (i : nat)
    (powers : list fr.Element) : result (list fr.Element) :=
  match steps with
  | O => Ok powers
  | S steps' =>
      prev ← slice.get powers (i - 1)%nat;
      powers' ← slice.set powers i (fr.Mul prev x);
      ComputePowers_loop x steps' (S i) powers'
  end.

Definition ComputePowers (x : fr.Element) (n : Z) : result (list fr.Element) :=
  powers ← slice.make fr.Sizeof fr.Zero n;
  powers ← slice.set powers 0%nat fr.One;
  ComputePowers_loop x (Z.to_nat (n - 1)) 1%nat powers.

Definition IsPowerOfTwo (value : Z) : bool :=
  (0 <? value) && (Z.land value (wrap64 (value - 1)) =? 0).

(** ** binary64

    [float64] values are IEEE-754 binary64 numbers, taken from the
    specification of floating-point numbers of the standard library
    ([prec = 53], [emax = 1024]). *)

Module float64.

Definition prec : Z := 53.
Definition emax : Z := 1024.

Definition t : Type := spec_float.

(** [float64(v)] for an integer [v]: the nearest binary64 number, ties to
    even. *)
Definition of_int (v : Z) : t := binary_normalize prec emax v 0 false.

Definition half : t := S754_finite false (2 ^ 52) (-53).

(** [int(f)]: the fractional part is discarded.  A value that does not
    fit [int] (64 bits) converts to an implementation-specific value;
    the smallest [int] stands for it, as on amd64. *)
Definition to_int (f : t) : Z :=
  match f with
  | S754_zero _ => 0
  | S754_finite s m e =>
      let magnitude := Z.shiftl (Z.pos m) e in
      let v := if s then - magnitude else magnitude in
      if (- 2 ^ 63 <=? v) && (v <? 2 ^ 63) then v else - 2 ^ 63
  | S754_infinity _ | S754_nan => - 2 ^ 63
  end.

(** [math.Frexp]: [f = frac * 2^exp] with [frac] in [[1/2, 1)]; zeros,
    infinities and NaN come back unchanged with exponent 0. *)
Definition Frexp (f : t) : t * Z :=
  match f with
  | S754_finite _ _ _ => SFfrexp prec emax f
  | _ => (f, 0)
  end.

End float64.

Section WithLog.

(** [math.Log2] (Go's math/log10.go) splits its argument with [Frexp] and
    answers exact powers of two from the exponent alone; only the other
    arguments reach the logarithm proper,
    [Log(frac)*(1/Ln2) + float64(exp)], which is left to the platform and
    is a parameter here. *)
Variable Log2_inexact : float64.t -> Z -> float64.t.

Definition Log2 (x : float64.t) : float64.t :=
  let '(frac, exp) := float64.Frexp x in
  if SFeqb frac float64.half then float64.of_int (exp - 1)
  else Log2_inexact frac exp.

(** [pow := int(math.Log2(float64(exp)))] *)
Definition Pow2_pow (exp : Z) : Z :=
  float64.to_int (Log2 (float64.of_int exp)).

(** [for i := 0; i < pow; i++ { result.Square(&result) }] *)
Fixpoint Pow2_loop (pow : nat) (result : fr.Element) : fr.Element :=
  match pow with
  | O => result
  | S pow' => Pow2_loop pow' (fr.Square result)
  end.

Definition Pow2 (x : fr.Element) (exp : Z) : result fr.Element :=
  if negb (IsPowerOfTwo exp) then
    Panicked (PanicMsg
      "The domain should always be a power of two, for our use-case")
  else
    let pow := Pow2_pow exp in
    if pow =? 0 then Ok fr.One
    else Ok (Pow2_loop (Z.to_nat pow) x).

End WithLog.

(** ** Decoding scalars *)

Module big.

(** [big.Int.SetBytes]: the bytes as a big-endian unsigned integer. *)
Definition SetBytes (buf : list byte) : Z :=
  fold_left (fun acc b => acc * 256 + Z.of_N (Byte.to_N b)) buf 0.

End big.

(** Width of the canonical encoding of a scalar, [fr.Bytes]. *)
Definition fr_Bytes : nat := 32.

(** [fr.Element.SetBytes]: the big-endian value of the buffer, reduced. *)
Definition fr_SetBytes (buf : list byte) : fr.Element :=
  big.SetBytes buf mod fr.Modulus.

(** Modelled from the spec: [ReduceCanonical] belongs to this package but
    its source file is missing.  Following section 4.5, the
    buffer is read as an arbitrary-precision unsigned integer and compared
    with the modulus; the reduced element is returned in every case, with
    a flag that is true when the integer was already below the modulus. *)
Definition ReduceCanonical (serScalar : list byte) : fr.Element * bool :=
  let value := big.SetBytes serScalar in
  let canonical := value <? fr.Modulus in
  (fr_SetBytes serScalar, canonical).

(** ** Bit-reversal permutation *)

(** [i] with its [bits] low bits in reverse order. *)
Fixpoint bitrev (bits : nat) (i : Z) : Z :=
  match bits with
  | O => 0
  | S b => Z.lor (Z.shiftl (Z.land i 1) (Z.of_nat b)) (bitrev b (Z.shiftr i 1))
  end.

Definition bitrev_index (bits : nat) (i : nat) : nat :=
  Z.to_nat (bitrev bits (Z.of_nat i)).

(** [s[i], s[j] = s[j], s[i]] on indices known to be in range. *)
Definition swap {A} (s : list A) (i j : nat) : list A :=
  match s !! i, s !! j with
  | Some a, Some b => <[j := a]> (<[i := b]> s)
  | _, _ => s
  end.

(** The pass over the indices [i, i + steps): a pair is exchanged when the
    index met first is the smaller of the two, so no pair is exchanged
    twice. *)
Fixpoint permute_loop {A} (rev : nat -> nat) (steps : nat) (i : nat)
    (s : list A) : list A :=
  match steps with
  | O => s
  | S steps' =>
      let irev := rev i in
      permute_loop rev steps' (S i)
        (if (i <? irev)%nat then swap s i irev else s)
  end.

(** Where the element found at index [j] stood before the pass, once the
    indices below [i] have been visited: the pairs with an index below [i]
    have been exchanged, the others not yet. *)
Definition source_index (rev : nat -> nat) (i j : nat) : nat :=
  if decide (j < i \/ rev j < i)%nat then rev j else j.

(** Modelled from the spec: [BitReverseRoots] belongs to this package but
    its source file is missing.  Following sections 4.3 and
    7, a length that is not a power of two is fatal (the text of the
    message is not fixed by the spec); otherwise the element at index [i]
    moves to index [bitrev(i, log2 n)], by exchanging in place the pairs
    with [i < bitrev(i)].  The value returned is the content of the slice
    after the call. *)
Definition BitReverseRoots (seq : list fr.Element) : result (list fr.Element) :=
  let n := length seq in
  if negb (IsPowerOfTwo (Z.of_nat n)) then
    Panicked (PanicMsg "the length of the sequence must be a power of two")
  else
    let bits := Z.to_nat (Z.log2 (Z.of_nat n)) in
    Ok (permute_loop (bitrev_index bits) n 0%nat seq).

(** ** Batch normalisation *)

(** The base field of the curve, as canonical residues of a modulus [p];
    the conversions below do not depend on which prime it is. *)
Module fp.

Definition Element : Type := Z.

Definition valid (p : Z) (a : Element) : Prop := 0 <= a < p.

Definition Zero : Element := 0.

Definition One : Element := 1.

Definition IsZero (a : Element) : bool := a =? 0.

Definition Mul (p : Z) (a b : Element) : Element := (a * b) mod p.

Definition Square (p : Z) (a : Element) : Element := (a * a) mod p.

(** [Inverse]: the modular inverse, and 0 for 0. *)
Definition Inverse (p : Z) (a : Element) : Element := Z.invmod a p.

End fp.

Record G1Jac : Type := { jacX : fp.Element; jacY : fp.Element; jacZ : fp.Element }.

Record G1Affine : Type := { affX : fp.Element; affY : fp.Element }.

(** The point at infinity: [Z = 0] in Jacobian coordinates, [(0, 0)] in
    affine coordinates. *)
Definition G1Jac_valid (p : Z) (P : G1Jac) : Prop :=
  fp.valid p (jacX P) /\ fp.valid p (jacY P) /\ fp.valid p (jacZ P).

Definition G1Affine_infinity : G1Affine := {| affX := fp.Zero; affY := fp.Zero |}.

(** [G1Affine.FromJacobian], the conversion of a single point:
    [(X / Z^2, Y / Z^3)], one inversion per point. *)
Definition FromJacobian (p : Z) (P : G1Jac) : G1Affine :=
  if fp.IsZero (jacZ P) then G1Affine_infinity
  else
    let a := fp.Inverse p (jacZ P) in
    let b := fp.Square p a in
    {| affX := fp.Mul p (jacX P) b;
       affY := fp.Mul p (fp.Mul p (jacY P) b) a |}.

(** First pass, front to back: each finite point receives the product of
    the [Z] of the finite points before it; points at infinity are left
    out of the product.  Returns the products and the final accumulator. *)
Fixpoint batch_products (p : Z) (accumulator : fp.Element) (points : list G1Jac)
    : list fp.Element * fp.Element :=
  match points with
  | [] => ([], accumulator)
  | P :: rest =>
      if fp.IsZero (jacZ P) then
        let '(prods, acc) := batch_products p accumulator rest in
        (fp.Zero :: prods, acc)
      else
        let '(prods, acc) :=
          batch_products p (fp.Mul p accumulator (jacZ P)) rest in
        (accumulator :: prods, acc)
  end.

(** Second pass, back to front, starting from the inverse of the whole
    product: each product becomes the inverse of the point's [Z], and the
    running inverse drops that [Z].  Returns the inverses and the running
    inverse left once the front is reached. *)
Fixpoint batch_inverses (p : Z) (points : list G1Jac) (prods : list fp.Element)
    (accInverse : fp.Element) : list fp.Element * fp.Element :=
  match points, prods with
  | P :: rest, prod :: prods' =>
      let '(invs, accInv) := batch_inverses p rest prods' accInverse in
      if fp.IsZero (jacZ P) then (prod :: invs, accInv)
      else (fp.Mul p prod accInv :: invs, fp.Mul p accInv (jacZ P))
  | _, _ => ([], accInverse)
  end.

(** Third pass: the coordinates from the inverse of [Z]. *)
Definition batch_affine (p : Z) (P : G1Jac) (a : fp.Element) : G1Affine :=
  if fp.IsZero (jacZ P) then G1Affine_infinity
  else
    let b := fp.Square p a in
    {| affX := fp.Mul p (jacX P) b;
       affY := fp.Mul p (fp.Mul p (jacY P) b) a |}.

(** Modelled from the spec: [BatchFromJacobian] belongs to this package but
    its source file is missing.  Following section 4.4, all
    inversions are amortised into one inversion of the product of the
    non-zero [Z] coordinates (Montgomery's trick) and the inverse of each
    [Z] is recovered by back-substitution; points at infinity are kept out
    of the product and map to the affine point at infinity. *)
Definition BatchFromJacobian (p : Z) (points : list G1Jac) : list G1Affine :=
  let '(prods, accumulator) := batch_products p fp.One points in
  let accInverse := fp.Inverse p accumulator in
  let '(invs, _) := batch_inverses p points prods accInverse in
  zip_with (batch_affine p) points invs.

(** A batch over the field of 13 elements with points at infinity in the
    middle and next to finite points, in the manner of
    [TestBatchNormalisation]. *)
Definition batch_with_infinities : list G1Jac :=
  [ {| jacX := 1; jacY := 2; jacZ := 3 |};
    {| jacX := 5; jacY := 6; jacZ := 0 |};
    {| jacX := 4; jacY := 4; jacZ := 7 |};
    {| jacX := 0; jacY := 1; jacZ := 0 |};
    {| jacX := 3; jacY := 9; jacZ := 12 |} ].

(** ** Helpers of the test file *)

(** The loop [for i := 0; i < size; i++ { res[i] = fr.NewElement(uint64(i)) }]
    of [randomScalars], with [steps] the number of iterations still to run
    from index [i]. *)
Fixpoint randomScalars_loop (steps : nat) (i : nat) (res : list fr.Element)
    : result (list fr.Element) :=
  match steps with
  | O => Ok res
  | S steps' =>
      res' ← slice.set res i (fr.NewElement (Z.of_nat i));
      randomScalars_loop steps' (S i) res'
  end.

Definition randomScalars (size : Z) : result (list fr.Element) :=
  res ← slice.make fr.Sizeof fr.Zero size;
  randomScalars_loop (Z.to_nat size) 0%nat res.

(** [addModP], on the value of the [big.Int]. *)
Definition addModP (x : Z) : Z := x + fr.Modulus.

(** [randReducedBigInt], as a function of the element drawn by
    [SetRandom]: its regular (non-Montgomery) value, unless the comparison
    with the modulus does not give [-1]. *)
Definition randReducedBigInt (randFr : fr.Element) : result Z :=
  let randBigInt := randFr in
  if negb (randBigInt <? fr.Modulus) then
    Panicked (PanicMsg "big integer is not reduced")
  else Ok randBigInt.

(** The byte of the residue of [z] modulo 256. *)
Definition byte_of_Z (z : Z) : byte :=
  default "000"%byte (Byte.of_N (Z.to_N (z mod 256))).

(** The [n] low bytes of [v], most significant first. *)
Fixpoint be_bytes (n : nat) (v : Z) : list byte :=
  match n with
  | O => []
  | S n' => be_bytes n' (v / 256) ++ [byte_of_Z v]
  end.

(** [big.Int.Bytes] on a non-negative integer: its big-endian bytes with no
    leading zero byte, [(BitLen + 7) / 8] of them. *)
Definition big_Bytes (v : Z) : list byte :=
  let len := if v =? 0 then O else S (Z.to_nat (Z.log2 v / 8)) in
  be_bytes len v.

(** [fr.Element.Bytes]: the canonical value on [fr.Bytes] bytes, big-endian. *)
Definition fr_Element_Bytes (e : fr.Element) : list byte :=
  be_bytes fr_Bytes e.

(** * Properties *)

(** ** Powers of two *)

Lemma land_even_odd a b : Z.land (2 * a) (2 * b + 1) = 2 * Z.land a b.
Proof.
  apply Z.bits_inj'. intros n Hn. rewrite Z.land_spec.
  destruct (Z.eq_dec n 0) as [-> | Hne].
  - now rewrite !Z.testbit_even_0.
  - replace n with (Z.succ (n - 1)) by lia.
    rewrite !Z.testbit_even_succ, Z.testbit_odd_succ by lia.
    now rewrite Z.land_spec.
Qed.

Lemma land_odd_even a : Z.land (2 * a + 1) (2 * a) = 2 * a.
Proof.
  apply Z.bits_inj'. intros n Hn. rewrite Z.land_spec.
  destruct (Z.eq_dec n 0) as [-> | Hne].
  - now rewrite Z.testbit_even_0, andb_false_r.
  - replace n with (Z.succ (n - 1)) by lia.
    rewrite !Z.testbit_even_succ, Z.testbit_odd_succ by lia.
    apply andb_diag.
Qed.

Lemma land_pred_pos (p : positive) :
  Z.land (Z.pos p) (Z.pos p - 1) = 0 <-> exists k, 0 <= k /\ Z.pos p = 2 ^ k.
Proof.
  induction p as [p IH | p IH | ].
  - replace (Z.pos p~1 - 1) with (2 * Z.pos p) by lia.
    rewrite Pos2Z.inj_xI, land_odd_even. split; [lia |].
    intros (k & Hk & E). destruct (Z.eq_dec k 0) as [-> | Hne]; [simpl in E; lia |].
    replace k with (Z.succ (k - 1)) in E by lia.
    rewrite Z.pow_succ_r in E by lia. lia.
  - replace (Z.pos p~0 - 1) with (2 * (Z.pos p - 1) + 1) by lia.
    rewrite Pos2Z.inj_xO, land_even_odd. split.
    + intros H. destruct (proj1 IH ltac:(lia)) as (k & Hk & E).
      exists (Z.succ k). split; [lia |]. rewrite Z.pow_succ_r by lia. lia.
    + intros (k & Hk & E).
      destruct (Z.eq_dec k 0) as [-> | Hne]; [simpl in E; lia |].
      replace k with (Z.succ (k - 1)) in E by lia.
      rewrite Z.pow_succ_r in E by lia.
      enough (Z.land (Z.pos p) (Z.pos p - 1) = 0) by lia.
      apply IH. exists (k - 1). split; lia.
  - split; [| reflexivity]. intros _. exists 0. split; [lia | reflexivity].
Qed.

Lemma IsPowerOfTwo_pow2 (v : Z) :
  uint64_range v ->
  IsPowerOfTwo v = true <-> exists k, 0 <= k < 64 /\ v = 2 ^ k.
Proof.
  intros Hv. unfold IsPowerOfTwo, uint64_range in *.
  rewrite andb_true_iff, Z.ltb_lt, Z.eqb_eq. split.
  - intros [Hpos Hland].
    unfold wrap64 in Hland. rewrite Z.mod_small in Hland by lia.
    destruct v as [| p |]; try lia.
    apply land_pred_pos in Hland as (k & Hk & E).
    exists k. split; [| exact E]. split; [lia |].
    apply (Z.pow_lt_mono_r_iff 2); lia.
  - intros (k & Hk & ->).
    assert (0 < 2 ^ k) by (apply Z.pow_pos_nonneg; lia).
    split; [assumption |].
    unfold wrap64. rewrite Z.mod_small by lia.
    destruct (2 ^ k) as [| p |] eqn:E; try lia.
    apply land_pred_pos. exists k. split; [lia | now symmetry].
Qed.

(** A property checked on each of the 64 bit positions holds at all of
    them. *)
Lemma forall_below_64 (P : Z -> bool) :
  forallb P (map Z.of_nat (seq 0 64)) = true ->
  forall k, 0 <= k < 64 -> P k = true.
Proof.
  intros H k Hk. rewrite forallb_forall in H. apply H.
  apply in_map_iff. exists (Z.to_nat k). split; [lia |].
  apply in_seq. lia.
Qed.

Lemma mod_pow2_succ (v n : Z) :
  0 <= n ->
  v mod 2 ^ Z.succ n = v mod 2 ^ n + 2 ^ n * Z.b2z (Z.testbit v n).
Proof.
  intros Hn. rewrite Z.pow_succ_r, (Z.mul_comm 2) by assumption.
  rewrite Z.rem_mul_r by lia. now rewrite Z.testbit_spec'.
Qed.

Lemma popcount_0 (n : nat) (v : Z) :
  popcount n v = 0%nat -> v mod 2 ^ Z.of_nat n = 0.
Proof.
  induction n as [| n IH]; intros H.
  - apply Z.mod_1_r.
  - simpl in H. rewrite Nat2Z.inj_succ, mod_pow2_succ by lia.
    destruct (Z.testbit v (Z.of_nat n)); [discriminate |].
    rewrite IH by exact H. simpl. lia.
Qed.

Lemma popcount_1 (n : nat) (v : Z) :
  popcount n v = 1%nat ->
  exists k, 0 <= k < Z.of_nat n /\ v mod 2 ^ Z.of_nat n = 2 ^ k.
Proof.
  induction n as [| n IH]; intros H; [discriminate |].
  simpl in H. rewrite Nat2Z.inj_succ, mod_pow2_succ by lia.
  destruct (Z.testbit v (Z.of_nat n)).
  - exists (Z.of_nat n). split; [lia |].
    rewrite popcount_0 by (simpl in H; lia). simpl. lia.
  - destruct (IH H) as (k & Hk & E). exists k. split; [lia |].
    rewrite E. simpl. lia.
Qed.

Lemma OnesCount64_pow2 (k : Z) : 0 <= k < 64 -> OnesCount64 (2 ^ k) = 1%nat.
Proof.
  intros Hk.
  apply Nat.eqb_eq.
  apply (forall_below_64 (fun k => Nat.eqb (OnesCount64 (2 ^ k)) 1)); [| exact Hk].
  vm_compute. reflexivity.
Qed.

(** C6. For every [uint64] value [v], [IsPowerOfTwo v] holds exactly when
    [v > 0] and exactly one bit of [v] is set; in particular
    [IsPowerOfTwo 0] is false. *)
Theorem IsPowerOfTwo_one_set_bit (v : Z) :
  uint64_range v ->
  (IsPowerOfTwo v = true <-> 0 < v /\ OnesCount64 v = 1%nat)
  /\ IsPowerOfTwo 0 = false.
Proof.
  intros Hv. split; [| reflexivity].
  rewrite (IsPowerOfTwo_pow2 v Hv). split.
  - intros (k & Hk & ->). split.
    + apply Z.pow_pos_nonneg; lia.
    + now apply OnesCount64_pow2.
  - intros [Hpos Hone]. apply popcount_1 in Hone as (k & Hk & E).
    exists k. split; [exact Hk |].
    unfold uint64_range in Hv. rewrite Z.mod_small in E; [exact E |].
    exact Hv.
Qed.

Lemma IsPowerOfTwo_one_set_bit_witness :
  uint64_range 1024 /\
  ((IsPowerOfTwo 1024 = true <-> 0 < 1024 /\ OnesCount64 1024 = 1%nat)
   /\ IsPowerOfTwo 0 = false).
Proof.
  assert (H : uint64_range 1024) by (unfold uint64_range; lia).
  split; [exact H | exact (IsPowerOfTwo_one_set_bit 1024 H)].
Defined.

(** ** The scalar field *)

Lemma Modulus_pos : 1 < fr.Modulus.
Proof. reflexivity. Qed.

Lemma fr_pow_valid (x : fr.Element) (n : Z) : fr.valid (fr.pow x n).
Proof. apply Z.mod_pos_bound. reflexivity. Qed.

Lemma fr_pow_0 (x : fr.Element) : fr.pow x 0 = fr.One.
Proof. reflexivity. Qed.

Lemma fr_pow_1 (x : fr.Element) : fr.valid x -> fr.pow x 1 = x.
Proof.
  intros Hx. unfold fr.pow. rewrite Z.pow_1_r. now apply Z.mod_small.
Qed.

Lemma fr_Mul_pow (x : fr.Element) (n : Z) :
  0 <= n -> fr.Mul (fr.pow x n) x = fr.pow x (Z.succ n).
Proof.
  intros Hn. unfold fr.Mul, fr.pow.
  rewrite Z.mul_mod_idemp_l by (intros E; discriminate E).
  now rewrite Z.pow_succ_r, Z.mul_comm.
Qed.

Lemma fr_Square_pow (x : fr.Element) (n : Z) :
  0 <= n -> fr.Square (fr.pow x n) = fr.pow x (2 * n).
Proof.
  intros Hn. unfold fr.Square, fr.pow.
  rewrite <- Z.mul_mod by (intros E; discriminate E).
  replace (2 * n) with (n + n) by lia. now rewrite Z.pow_add_r.
Qed.

Lemma fr_Square_base (x : fr.Element) : fr.Square x = fr.pow x 2.
Proof. unfold fr.Square, fr.pow. now rewrite Z.pow_2_r. Qed.

(** gnark's square-and-multiply agrees with the power as a number. *)
Lemma fr_Exp_pos_pow (x : fr.Element) (k : positive) :
  fr.valid x -> fr.Exp_pos x k = fr.pow x (Z.pos k).
Proof.
  intros Hx. induction k as [k IH | k IH | ]; simpl.
  - rewrite IH, fr_Square_pow, fr_Mul_pow by lia. f_equal.
  - rewrite IH, fr_Square_pow by lia. f_equal.
  - now rewrite fr_pow_1.
Qed.

Lemma fr_Exp_pow (x : fr.Element) (k : Z) :
  fr.valid x -> 0 <= k -> fr.Exp x k = fr.pow x k.
Proof.
  intros Hx Hk. destruct k as [| k | k]; [reflexivity | | lia].
  now apply fr_Exp_pos_pow.
Qed.

(** ** [ComputePowers] *)

Lemma slice_get_Some {A} (s : list A) (i : nat) (v : A) :
  s !! i = Some v -> slice.get s i = Ok v.
Proof. intros H. unfold slice.get. now rewrite H. Qed.

Lemma slice_set_lt {A} (s : list A) (i : nat) (v : A) :
  (i < length s)%nat -> slice.set s i v = Ok (<[i := v]> s).
Proof. intros H. unfold slice.set. now rewrite decide_True. Qed.

Lemma slice_set_ge {A} (s : list A) (i : nat) (v : A) :
  (length s <= i)%nat -> slice.set s i v = Panicked (IndexOutOfRange i (length s)).
Proof. intros H. unfold slice.set. rewrite decide_False; [reflexivity | lia]. Qed.

Lemma slice_make_Ok {A} (elem_size : Z) (zero : A) (n : Z) :
  0 <= n -> elem_size * n <= slice.maxAlloc ->
  slice.make elem_size zero n = Ok (replicate (Z.to_nat n) zero).
Proof.
  intros Hn Hfit. unfold slice.make.
  destruct (Z.ltb_spec n 0); [lia |].
  destruct (Z.ltb_spec slice.maxAlloc (elem_size * n)); [lia | reflexivity].
Qed.

Lemma slice_make_Ok_inv {A} (elem_size : Z) (zero : A) (n : Z) (s : list A) :
  slice.make elem_size zero n = Ok s ->
  0 <= n /\ elem_size * n <= slice.maxAlloc /\ s = replicate (Z.to_nat n) zero.
Proof.
  unfold slice.make. intros E.
  destruct (Z.ltb_spec n 0); [discriminate E |].
  destruct (Z.ltb_spec slice.maxAlloc (elem_size * n)); [discriminate E |].
  injection E as <-. auto.
Qed.

Lemma slice_make_Panicked {A} (elem_size : Z) (zero : A) (n : Z) :
  n < 0 \/ slice.maxAlloc < elem_size * n ->
  slice.make elem_size zero n = Panicked MakeSliceLenOutOfRange.
Proof.
  intros H. unfold slice.make.
  destruct (Z.ltb_spec n 0); [reflexivity |].
  destruct (Z.ltb_spec slice.maxAlloc (elem_size * n)); [reflexivity | lia].
Qed.

(** The loop invariant: the entries below [i] are the powers of [x]. *)
Lemma ComputePowers_loop_powers (x : fr.Element) (steps i : nat)
    (powers : list fr.Element) :
  (1 <= i)%nat ->
  length powers = (i + steps)%nat ->
  (forall j, (j < i)%nat -> powers !! j = Some (fr.pow x (Z.of_nat j))) ->
  exists out,
    ComputePowers_loop x steps i powers = Ok out
    /\ length out = (i + steps)%nat
    /\ forall j, (j < i + steps)%nat -> out !! j = Some (fr.pow x (Z.of_nat j)).
Proof.
  revert i powers. induction steps as [| steps IH]; intros i powers Hi Hlen Hinv.
  - exists powers. simpl. rewrite Nat.add_0_r in *. auto.
  - simpl.
    rewrite (slice_get_Some powers (i - 1) (fr.pow x (Z.of_nat (i - 1))))
      by (apply Hinv; lia).
    simpl. rewrite slice_set_lt by lia. simpl.
    destruct (IH (S i) (<[i := fr.Mul (fr.pow x (Z.of_nat (i - 1))) x]> powers))
      as (out & Hout & Hlen' & Hall).
    + lia.
    + rewrite length_insert. lia.
    + intros j Hj. destruct (decide (j = i)) as [-> | Hne].
      * rewrite list_lookup_insert_eq by lia. f_equal.
        rewrite fr_Mul_pow by lia. f_equal. lia.
      * rewrite list_lookup_insert_ne by congruence. apply Hinv. lia.
    + exists out. split; [exact Hout |]. split; [lia |].
      intros j Hj. apply Hall. lia.
Qed.

(** For a positive count that [make] accepts the result is the sequence
    of the first [n] powers of [x]. *)
Lemma ComputePowers_positive (x : fr.Element) (n : Z) :
  1 <= n -> fr.Sizeof * n <= slice.maxAlloc ->
  exists powers,
    ComputePowers x n = Ok powers
    /\ length powers = Z.to_nat n
    /\ forall i, 0 <= i < n -> powers !! Z.to_nat i = Some (fr.pow x i).
Proof.
  intros Hn Hfit. unfold ComputePowers.
  rewrite slice_make_Ok by (lia || exact Hfit). simpl.
  rewrite slice_set_lt by (rewrite length_replicate; lia). simpl.
  destruct (ComputePowers_loop_powers x (Z.to_nat (n - 1)) 1
              (<[0%nat := fr.One]> (replicate (Z.to_nat n) fr.Zero)))
    as (out & Hout & Hlen & Hall).
  - lia.
  - rewrite length_insert, length_replicate. lia.
  - intros j Hj. assert (j = 0%nat) as -> by lia.
    rewrite list_lookup_insert_eq by (rewrite length_replicate; lia).
    reflexivity.
  - exists out. split; [exact Hout |]. split; [lia |].
    intros i Hi. rewrite Hall by lia. f_equal. f_equal. lia.
Qed.

(** The elements agree with gnark's [Exp] on a field element, the
    comparison made by [TestComputePowersSmoke]. *)
Lemma ComputePowers_positive_Exp (x : fr.Element) (n : Z) :
  fr.valid x -> 1 <= n -> fr.Sizeof * n <= slice.maxAlloc ->
  exists powers,
    ComputePowers x n = Ok powers
    /\ forall i, 0 <= i < n -> powers !! Z.to_nat i = Some (fr.Exp x i).
Proof.
  intros Hx Hn Hfit.
  destruct (ComputePowers_positive x n Hn Hfit) as (powers & E & _ & Hall).
  exists powers. split; [exact E |]. intros i Hi.
  rewrite fr_Exp_pow by (assumption || lia). now apply Hall.
Qed.

(** C3. [ComputePowers x 0] does not return the empty sequence: the write
    to [powers[0]] is out of range on the empty slice and the call panics,
    although [TestComputePowersZero] expects a slice of length 0. *)
Theorem ComputePowers_zero_panics (x : fr.Element) :
  ComputePowers x 0 = Panicked (IndexOutOfRange 0 0).
Proof. reflexivity. Qed.

(** C4. At [n = 0] no sequence of length [n] comes back, for the base 123
    of [TestComputePowersSmoke] as for any other: the call panics on
    [powers[0]].  (For [n >= 1] within the limit of [make] the sequence of
    powers is returned, see [ComputePowers_positive].) *)
Theorem ComputePowers_no_sequence_at_zero :
  ComputePowers (fr.NewElement 123) 0 = Panicked (IndexOutOfRange 0 0)
  /\ ~ exists powers : list fr.Element,
         ComputePowers (fr.NewElement 123) 0 = Ok powers /\ length powers = 0%nat.
Proof.
  split; [reflexivity |]. intros (powers & E & _). discriminate E.
Qed.

(** ** [Pow2] *)

Section Pow2Properties.

Variable Log2_inexact : float64.t -> Z -> float64.t.

(** The detour through binary64 is exact on every power of two that a
    [uint64] holds: the conversion does not round, [Frexp] yields the
    fraction 1/2, and [Log2] answers from the exponent. *)
Lemma Pow2_pow_exact (k : Z) : 0 <= k < 64 -> Pow2_pow Log2_inexact (2 ^ k) = k.
Proof.
  intros Hk. apply Z.eqb_eq.
  apply (forall_below_64 (fun k => Pow2_pow Log2_inexact (2 ^ k) =? k)); [| exact Hk].
  vm_compute. reflexivity.
Qed.

Lemma Pow2_loop_pow (n : nat) (x : fr.Element) :
  Pow2_loop (S n) x = fr.pow x (2 ^ Z.of_nat (S n)).
Proof.
  revert x. induction n as [| n IH]; intros x.
  - simpl. apply fr_Square_base.
  - change (Pow2_loop (S (S n)) x) with (Pow2_loop (S n) (fr.Square x)).
    rewrite IH, fr_Square_base. unfold fr.pow.
    rewrite Z.mod_pow_l, <- Z.pow_mul_r by lia.
    f_equal. f_equal. rewrite (Nat2Z.inj_succ (S n)), Z.pow_succ_r by lia.
    reflexivity.
Qed.

Lemma Pow2_at_pow2 (x : fr.Element) (k : Z) :
  1 <= k < 64 ->
  Pow2 Log2_inexact x (2 ^ k) = Ok (Pow2_loop (Z.to_nat k) x)
  /\ Pow2_loop (Z.to_nat k) x = fr.pow x (2 ^ k).
Proof.
  intros Hk. split.
  - unfold Pow2.
    assert (Hpow : IsPowerOfTwo (2 ^ k) = true).
    { apply IsPowerOfTwo_pow2.
      - split; [apply Z.pow_nonneg; lia | apply Z.pow_lt_mono_r; lia].
      - exists k. split; [lia | reflexivity]. }
    rewrite Hpow. simpl negb. cbv iota.
    rewrite Pow2_pow_exact by lia.
    destruct (Z.eqb_spec k 0) as [E | _]; [lia | reflexivity].
  - replace (Z.to_nat k) with (S (Z.to_nat (k - 1))) by lia.
    rewrite Pow2_loop_pow. f_equal. f_equal. lia.
Qed.

(** C1. At [k = 0] the result is not [x^(2^0)]: on the base 123 of
    [TestExponentiate] and the exponent [1 = 2^0], [Pow2] returns the
    element 1, while the power, as a number and as computed by [Exp], is
    123. *)
Theorem Pow2_exponent_one_is_not_the_power :
  Pow2 Log2_inexact (fr.NewElement 123) (2 ^ 0) = Ok fr.One
  /\ fr.Exp (fr.NewElement 123) (2 ^ 0) = 123
  /\ fr.pow (fr.NewElement 123) (2 ^ 0) = 123
  /\ fr.Equal fr.One (fr.Exp (fr.NewElement 123) (2 ^ 0)) = false.
Proof. repeat split. Qed.

(** C2. For every field element [x], [Pow2 x 1] returns the element 1 of
    the field, whatever [x] is. *)
Theorem Pow2_exponent_one (x : fr.Element) :
  Pow2 Log2_inexact x 1 = Ok fr.One.
Proof. reflexivity. Qed.

(** C5. [Pow2 x exp] panics exactly when [exp] does not satisfy
    [IsPowerOfTwo], and then with the message of the source; when [exp]
    satisfies it, the call returns. *)
Theorem Pow2_panics_iff_not_power_of_two (x : fr.Element) (exp : Z) :
  (Pow2 Log2_inexact x exp
     = Panicked (PanicMsg
         "The domain should always be a power of two, for our use-case")
   <-> IsPowerOfTwo exp = false)
  /\ panics (Pow2 Log2_inexact x exp) = negb (IsPowerOfTwo exp).
Proof.
  unfold Pow2. destruct (IsPowerOfTwo exp); simpl.
  - destruct (Pow2_pow Log2_inexact exp =? 0); simpl;
      (split; [split; discriminate | reflexivity]).
  - split; [split; reflexivity | reflexivity].
Qed.

(** C10. For every field element [x] and every power of two [exp] with
    [2 <= exp] that a [uint64] holds (so up to [2^63]), the count of
    squarings taken through binary64 is exactly [log2 exp], the loop runs
    that many squarings, and [Pow2 x exp] returns [x^exp], the value of
    the independent [Exp]. *)
Theorem Pow2_exact_from_two (x : fr.Element) (exp : Z) :
  fr.valid x ->
  uint64_range exp ->
  IsPowerOfTwo exp = true ->
  2 <= exp ->
  Pow2_pow Log2_inexact exp = Z.log2 exp
  /\ 2 ^ Z.log2 exp = exp
  /\ Pow2 Log2_inexact x exp = Ok (Pow2_loop (Z.to_nat (Z.log2 exp)) x)
  /\ Pow2 Log2_inexact x exp = Ok (fr.pow x exp)
  /\ fr.pow x exp = fr.Exp x exp.
Proof.
  intros Hx Hrange Hpow Hexp.
  apply IsPowerOfTwo_pow2 in Hpow as (k & Hk & ->); [| exact Hrange].
  assert (1 <= k).
  { destruct (Z.eq_dec k 0) as [-> | Hne]; [simpl in Hexp; lia | lia]. }
  rewrite Z.log2_pow2 by lia.
  destruct (Pow2_at_pow2 x k ltac:(lia)) as [Hcall Hloop].
  split; [apply Pow2_pow_exact; lia |].
  split; [reflexivity |].
  split; [exact Hcall |].
  split; [now rewrite Hcall, Hloop |].
  symmetry. apply fr_Exp_pow; [exact Hx |]. apply Z.pow_nonneg. lia.
Qed.

End Pow2Properties.

Lemma Pow2_exact_from_two_witness :
  fr.valid 123 /\ uint64_range 16 /\ IsPowerOfTwo 16 = true /\ 2 <= 16
  /\ (Pow2_pow (fun _ _ => S754_nan) 16 = Z.log2 16
      /\ 2 ^ Z.log2 16 = 16
      /\ Pow2 (fun _ _ => S754_nan) 123 16
           = Ok (Pow2_loop (Z.to_nat (Z.log2 16)) 123)
      /\ Pow2 (fun _ _ => S754_nan) 123 16 = Ok (fr.pow 123 16)
      /\ fr.pow 123 16 = fr.Exp 123 16).
Proof.
  assert (H1 : fr.valid 123) by (unfold fr.valid, fr.Modulus; lia).
  assert (H2 : uint64_range 16) by (unfold uint64_range; lia).
  assert (H3 : IsPowerOfTwo 16 = true) by reflexivity.
  assert (H4 : 2 <= 16) by lia.
  repeat (split; [assumption |]).
  exact (Pow2_exact_from_two (fun _ _ => S754_nan) 123 16 H1 H2 H3 H4).
Defined.

(** ** [ReduceCanonical] *)

Lemma big_SetBytes_acc (buf : list byte) (acc : Z) :
  fold_left (fun acc b => acc * 256 + Z.of_N (Byte.to_N b)) buf acc
  = acc * 256 ^ Z.of_nat (length buf) + big.SetBytes buf.
Proof.
  unfold big.SetBytes. revert acc.
  induction buf as [| b buf IH]; intros acc.
  - simpl. lia.
  - cbn [fold_left length]. rewrite IH, (IH (0 * 256 + _)).
    rewrite Nat2Z.inj_succ, Z.pow_succ_r by lia. ring.
Qed.

(** The first byte is the most significant. *)
Lemma big_SetBytes_cons (b : byte) (buf : list byte) :
  big.SetBytes (b :: buf)
  = Z.of_N (Byte.to_N b) * 256 ^ Z.of_nat (length buf) + big.SetBytes buf.
Proof.
  unfold big.SetBytes at 1. cbn [fold_left]. rewrite big_SetBytes_acc. ring.
Qed.

Lemma big_SetBytes_nonneg (buf : list byte) : 0 <= big.SetBytes buf.
Proof.
  induction buf as [| b buf IH]; [reflexivity |].
  rewrite big_SetBytes_cons.
  assert (0 <= 256 ^ Z.of_nat (length buf)) by (apply Z.pow_nonneg; lia).
  nia.
Qed.

Lemma byte_of_Z_value (z : Z) : Z.of_N (Byte.to_N (byte_of_Z z)) = z mod 256.
Proof.
  pose proof (Z.mod_pos_bound z 256 ltac:(lia)) as Hb.
  unfold byte_of_Z.
  destruct (Byte.of_N (Z.to_N (z mod 256))) as [b |] eqn:E.
  - apply Byte.to_of_N in E. simpl. rewrite E. lia.
  - apply Byte.of_N_None_iff in E. lia.
Qed.

Lemma be_bytes_length (n : nat) (v : Z) : length (be_bytes n v) = n.
Proof.
  revert v. induction n as [| n IH]; intros v; [reflexivity |].
  cbn [be_bytes]. rewrite length_app, IH. simpl. lia.
Qed.

Lemma big_SetBytes_snoc (buf : list byte) (b : byte) :
  big.SetBytes (buf ++ [b]) = big.SetBytes buf * 256 + Z.of_N (Byte.to_N b).
Proof. unfold big.SetBytes. now rewrite fold_left_app. Qed.

(** Decoding the [n] low bytes of [v] gives [v] modulo [256^n]. *)
Lemma big_SetBytes_be_bytes (n : nat) (v : Z) :
  big.SetBytes (be_bytes n v) = v mod 256 ^ Z.of_nat n.
Proof.
  revert v. induction n as [| n IH]; intros v.
  - simpl. now rewrite Z.mod_1_r.
  - cbn [be_bytes]. rewrite big_SetBytes_snoc, IH, byte_of_Z_value.
    rewrite Nat2Z.inj_succ, Z.pow_succ_r by lia.
    assert (0 < 256 ^ Z.of_nat n) by (apply Z.pow_pos_nonneg; lia).
    rewrite Z.rem_mul_r by lia. lia.
Qed.

Lemma big_SetBytes_bound (buf : list byte) :
  0 <= big.SetBytes buf < 256 ^ Z.of_nat (length buf).
Proof.
  split; [apply big_SetBytes_nonneg |].
  induction buf as [| b buf IH]; [reflexivity |].
  rewrite big_SetBytes_cons. cbn [length].
  rewrite Nat2Z.inj_succ, Z.pow_succ_r by lia.
  pose proof (Byte.to_N_bounded b) as Hb.
  assert (0 < 256 ^ Z.of_nat (length buf)) by (apply Z.pow_pos_nonneg; lia).
  nia.
Qed.

Lemma byte_of_Z_byte (b : byte) (k : Z) :
  byte_of_Z (k * 256 + Z.of_N (Byte.to_N b)) = b.
Proof.
  pose proof (Byte.to_N_bounded b) as Hb. unfold byte_of_Z.
  rewrite Z.add_comm, Z.mod_add by lia.
  rewrite Z.mod_small by lia. rewrite N2Z.id, Byte.of_to_N. reflexivity.
Qed.

(** Every buffer is the big-endian encoding, on its own length, of the
    integer it decodes to. *)
Lemma be_bytes_SetBytes (buf : list byte) :
  be_bytes (length buf) (big.SetBytes buf) = buf.
Proof.
  induction buf as [| b buf IH] using rev_ind; [reflexivity |].
  rewrite length_app, Nat.add_1_r, big_SetBytes_snoc. cbn [length be_bytes].
  pose proof (Byte.to_N_bounded b) as Hb.
  rewrite byte_of_Z_byte. f_equal.
  rewrite Z.div_add_l, Z.div_small, Z.add_0_r by lia. exact IH.
Qed.

(** On the canonical encoding of an integer [v] of 32 bytes, the element
    is [v] reduced and the flag tells whether [v] was below the modulus. *)
Lemma ReduceCanonical_be_bytes (v : Z) :
  0 <= v < 256 ^ Z.of_nat fr_Bytes ->
  ReduceCanonical (be_bytes fr_Bytes v) = (v mod fr.Modulus, v <? fr.Modulus).
Proof.
  intros Hv. unfold ReduceCanonical, fr_SetBytes.
  rewrite big_SetBytes_be_bytes.
  rewrite (Z.mod_small v (256 ^ Z.of_nat fr_Bytes)) by exact Hv. reflexivity.
Qed.

(** C7. For every buffer of the canonical width, [ReduceCanonical] returns
    (there is no failure case).  The buffer is the big-endian encoding on
    32 bytes of an integer [v]; the element returned is [v] reduced modulo
    the field modulus, and the flag is true exactly when [v] is below the
    modulus. *)
Theorem ReduceCanonical_reduces_and_flags (buf : list byte) :
  length buf = fr_Bytes ->
  exists v : Z,
    0 <= v < 256 ^ Z.of_nat fr_Bytes
    /\ be_bytes fr_Bytes v = buf
    /\ ReduceCanonical buf = (v mod fr.Modulus, v <? fr.Modulus)
    /\ fr.valid (v mod fr.Modulus)
    /\ ((v <? fr.Modulus) = true <-> v < fr.Modulus).
Proof.
  intros Hlen. exists (big.SetBytes buf).
  pose proof (big_SetBytes_bound buf) as Hb. rewrite Hlen in Hb.
  pose proof (be_bytes_SetBytes buf) as Henc. rewrite Hlen in Henc.
  split; [exact Hb |]. split; [exact Henc |]. split.
  - rewrite <- Henc at 1. now apply ReduceCanonical_be_bytes.
  - split; [apply Z.mod_pos_bound; reflexivity | apply Z.ltb_lt].
Qed.

Lemma ReduceCanonical_reduces_and_flags_witness :
  length (repeat "255"%byte 32) = fr_Bytes
  /\ exists v : Z,
       0 <= v < 256 ^ Z.of_nat fr_Bytes
       /\ be_bytes fr_Bytes v = repeat "255"%byte 32
       /\ ReduceCanonical (repeat "255"%byte 32)
          = (v mod fr.Modulus, v <? fr.Modulus)
       /\ fr.valid (v mod fr.Modulus)
       /\ ((v <? fr.Modulus) = true <-> v < fr.Modulus).
Proof.
  split; [reflexivity |].
  apply (ReduceCanonical_reduces_and_flags (repeat "255"%byte 32)).
  reflexivity.
Defined.

(** ** Bit reversal *)

Lemma testbit_1 (j : Z) : Z.testbit 1 j = (j =? 0).
Proof.
  destruct (Z.eqb_spec j 0) as [-> | Hne]; [reflexivity |].
  destruct (Z.lt_ge_cases j 0) as [Hneg | Hpos].
  - now apply Z.testbit_neg_r.
  - apply (Z.pow2_bits_false 0). lia.
Qed.

(** Bit [j] of the reversal is bit [bits - 1 - j] of the argument. *)
Lemma bitrev_testbit (bits : nat) (i j : Z) :
  0 <= j ->
  Z.testbit (bitrev bits i) j
  = (j <? Z.of_nat bits) && Z.testbit i (Z.of_nat bits - 1 - j).
Proof.
  revert i j. induction bits as [| b IH]; intros i j Hj.
  - cbn [bitrev]. rewrite Z.bits_0. change (Z.of_nat 0) with 0.
    destruct (Z.ltb_spec j 0); [lia | reflexivity].
  - cbn [bitrev].
    rewrite Z.lor_spec, Z.shiftl_spec, Z.land_spec, testbit_1, IH by lia.
    rewrite Nat2Z.inj_succ.
    destruct (Z.ltb_spec j (Z.of_nat b)) as [Hlt | Hge].
    + destruct (Z.eqb_spec (j - Z.of_nat b) 0) as [E | _]; [lia |].
      rewrite andb_false_r. simpl.
      destruct (Z.ltb_spec j (Z.succ (Z.of_nat b))); [| lia]. simpl.
      rewrite Z.shiftr_spec by lia. f_equal. lia.
    + simpl. rewrite orb_false_r.
      destruct (Z.eqb_spec (j - Z.of_nat b) 0) as [E | Hne].
      * destruct (Z.ltb_spec j (Z.succ (Z.of_nat b))); [| lia].
        rewrite andb_true_r. simpl. f_equal. lia.
      * destruct (Z.ltb_spec j (Z.succ (Z.of_nat b))); [lia |].
        now rewrite andb_false_r.
Qed.

Lemma bitrev_nonneg (bits : nat) (i : Z) : 0 <= bitrev bits i.
Proof.
  revert i. induction bits as [| b IH]; intros i; [reflexivity |].
  cbn [bitrev]. apply Z.lor_nonneg. split; [| apply IH].
  apply Z.shiftl_nonneg. apply Z.land_nonneg. right. lia.
Qed.

Lemma bitrev_range (bits : nat) (i : Z) :
  0 <= bitrev bits i < 2 ^ Z.of_nat bits.
Proof.
  split; [apply bitrev_nonneg |].
  destruct (Z.eq_dec (bitrev bits i) 0) as [E | Hne].
  - rewrite E. apply Z.pow_pos_nonneg; lia.
  - pose proof (bitrev_nonneg bits i) as Hnn.
    apply Z.log2_lt_pow2; [lia |].
    destruct (Z.lt_ge_cases (Z.log2 (bitrev bits i)) (Z.of_nat bits))
      as [Hlt | Hge]; [exact Hlt | exfalso].
    pose proof (Z.bit_log2 (bitrev bits i) ltac:(lia)) as Hbit.
    rewrite bitrev_testbit in Hbit by apply Z.log2_nonneg.
    destruct (Z.ltb_spec (Z.log2 (bitrev bits i)) (Z.of_nat bits));
      [lia | discriminate Hbit].
Qed.

Lemma bitrev_involutive (bits : nat) (i : Z) :
  0 <= i < 2 ^ Z.of_nat bits -> bitrev bits (bitrev bits i) = i.
Proof.
  intros Hi. apply Z.bits_inj'. intros j Hj.
  rewrite bitrev_testbit by exact Hj.
  destruct (Z.ltb_spec j (Z.of_nat bits)) as [Hlt | Hge]; simpl.
  - rewrite bitrev_testbit by lia.
    destruct (Z.ltb_spec (Z.of_nat bits - 1 - j) (Z.of_nat bits)); [| lia].
    simpl. f_equal. lia.
  - symmetry. rewrite <- (Z.mod_small i (2 ^ Z.of_nat bits)) by exact Hi.
    apply Z.mod_pow2_bits_high. lia.
Qed.

Lemma bitrev_index_lt (bits : nat) (i : nat) :
  (bitrev_index bits i < 2 ^ bits)%nat.
Proof.
  unfold bitrev_index.
  pose proof (bitrev_range bits (Z.of_nat i)) as H.
  apply Nat2Z.inj_lt. rewrite Z2Nat.id by lia.
  rewrite Nat2Z.inj_pow. exact (proj2 H).
Qed.

Lemma bitrev_index_involutive (bits : nat) (i : nat) :
  (i < 2 ^ bits)%nat -> bitrev_index bits (bitrev_index bits i) = i.
Proof.
  intros Hi. unfold bitrev_index.
  pose proof (bitrev_range bits (Z.of_nat i)) as H.
  rewrite Z2Nat.id by lia. rewrite bitrev_involutive; [lia |].
  split; [lia |]. apply Nat2Z.inj_lt in Hi. now rewrite Nat2Z.inj_pow in Hi.
Qed.

Lemma swap_length {A} (s : list A) (i j : nat) : length (swap s i j) = length s.
Proof.
  unfold swap. destruct (s !! i), (s !! j); try reflexivity.
  now rewrite !length_insert.
Qed.

Lemma swap_lookup {A} (s : list A) (i j k : nat) :
  (i < length s)%nat -> (j < length s)%nat ->
  swap s i j !! k
  = if decide (k = j) then s !! i else if decide (k = i) then s !! j else s !! k.
Proof.
  intros Hi Hj. unfold swap.
  destruct (lookup_lt_is_Some_2 s i Hi) as [a Ha].
  destruct (lookup_lt_is_Some_2 s j Hj) as [b Hb].
  rewrite Ha, Hb.
  destruct (decide (k = j)) as [-> | Hkj].
  - now rewrite list_lookup_insert_eq by (rewrite length_insert; lia).
  - rewrite list_lookup_insert_ne by congruence.
    destruct (decide (k = i)) as [-> | Hki].
    + now rewrite list_lookup_insert_eq by lia.
    + now rewrite list_lookup_insert_ne by congruence.
Qed.

Section Permutation.

Context {A : Type}.
Variable rev : nat -> nat.
Variable n : nat.
Variable orig : list A.

Hypothesis rev_lt : forall i, (i < n)%nat -> (rev i < n)%nat.
Hypothesis rev_involutive : forall i, (i < n)%nat -> rev (rev i) = i.

Lemma permute_loop_lookup (steps i : nat) (s : list A) :
  (i + steps)%nat = n ->
  length s = n ->
  (forall j, (j < n)%nat -> s !! j = orig !! source_index rev i j) ->
  length (permute_loop rev steps i s) = n
  /\ forall j, (j < n)%nat -> permute_loop rev steps i s !! j = orig !! rev j.
Proof.
  revert i s. induction steps as [| steps IH]; intros i s Hsteps Hlen Hinv.
  - simpl. split; [exact Hlen |]. intros j Hj. rewrite Hinv by exact Hj.
    unfold source_index. rewrite decide_True; [reflexivity | lia].
  - cbn [permute_loop]. apply IH; [lia | |].
    + destruct (i <? rev i)%nat; [now rewrite swap_length | exact Hlen].
    + assert (Hi : (i < n)%nat) by lia.
      pose proof (rev_lt i Hi) as Hri.
      intros j Hj. pose proof (rev_lt j Hj) as Hrj.
      destruct (Nat.ltb_spec i (rev i)) as [Hlt | Hge].
      * rewrite swap_lookup by lia. rewrite !Hinv by lia.
        unfold source_index.
        destruct (decide (j = rev i)) as [-> | Hne1].
        { rewrite rev_involutive by exact Hi.
          rewrite decide_False by lia. now rewrite decide_True by lia. }
        destruct (decide (j = i)) as [-> | Hne2].
        { rewrite decide_False by (rewrite rev_involutive; lia).
          now rewrite decide_True by lia. }
        assert (rev j <> i).
        { intros E. apply Hne1. rewrite <- E. now rewrite rev_involutive. }
        destruct (decide (j < i \/ rev j < i)%nat).
        -- now rewrite decide_True by lia.
        -- now rewrite decide_False by lia.
      * rewrite Hinv by exact Hj. unfold source_index.
        destruct (decide (j < i \/ rev j < i)%nat) as [Hd | Hd].
        -- now rewrite decide_True by lia.
        -- destruct (decide (j = i)) as [-> | Hne].
           { rewrite decide_True by lia.
             assert (rev i = i) as -> by lia. reflexivity. }
           destruct (decide (rev j = i)) as [E | Hne'].
           { exfalso. assert (j = rev i) by (rewrite <- E; now rewrite rev_involutive).
             lia. }
           now rewrite decide_False by lia.
Qed.

End Permutation.

Lemma pow2_length_nat (n : nat) :
  uint64_range (Z.of_nat n) ->
  IsPowerOfTwo (Z.of_nat n) = true ->
  n = (2 ^ Z.to_nat (Z.log2 (Z.of_nat n)))%nat.
Proof.
  intros Hrange Hpow.
  apply IsPowerOfTwo_pow2 in Hpow as (k & Hk & E); [| exact Hrange].
  rewrite E, Z.log2_pow2 by lia.
  apply Nat2Z.inj. rewrite Nat2Z.inj_pow, Z2Nat.id by lia. exact E.
Qed.

(** One call moves the element at index [bitrev j] to index [j], that is,
    the element at index [i] to index [bitrev i]. *)
Lemma BitReverseRoots_permutes (seq : list fr.Element) :
  uint64_range (Z.of_nat (length seq)) ->
  IsPowerOfTwo (Z.of_nat (length seq)) = true ->
  exists out,
    BitReverseRoots seq = Ok out
    /\ length out = length seq
    /\ forall j, (j < length seq)%nat ->
         out !! j
         = seq !! bitrev_index (Z.to_nat (Z.log2 (Z.of_nat (length seq)))) j.
Proof.
  intros Hrange Hpow. unfold BitReverseRoots. rewrite Hpow. simpl negb. cbv iota.
  eexists. split; [reflexivity |].
  pose proof (pow2_length_nat (length seq) Hrange Hpow) as Hn.
  set (bits := Z.to_nat (Z.log2 (Z.of_nat (length seq)))) in *.
  apply (permute_loop_lookup (bitrev_index bits) (length seq) seq).
  - intros i _. rewrite Hn. apply bitrev_index_lt.
  - intros i Hi. apply bitrev_index_involutive. now rewrite <- Hn.
  - reflexivity.
  - reflexivity.
  - intros j _. unfold source_index. rewrite decide_False; [reflexivity | lia].
Qed.

(** C9. For every sequence whose length is a power of two, a call of
    [BitReverseRoots] followed by a second call on the reordered sequence
    gives back the original ordering. *)
Theorem BitReverseRoots_twice (seq : list fr.Element) :
  uint64_range (Z.of_nat (length seq)) ->
  IsPowerOfTwo (Z.of_nat (length seq)) = true ->
  exists once,
    BitReverseRoots seq = Ok once /\ BitReverseRoots once = Ok seq.
Proof.
  intros Hrange Hpow.
  destruct (BitReverseRoots_permutes seq Hrange Hpow) as (once & E1 & Hlen1 & H1).
  exists once. split; [exact E1 |].
  destruct (BitReverseRoots_permutes once) as (twice & E2 & Hlen2 & H2).
  { now rewrite Hlen1. }
  { now rewrite Hlen1. }
  rewrite E2. f_equal. apply list_eq. intros j.
  destruct (Nat.lt_ge_cases j (length seq)) as [Hlt | Hge].
  - pose proof (pow2_length_nat (length seq) Hrange Hpow) as Hn.
    rewrite H2, Hlen1 by lia.
    rewrite H1 by (rewrite Hn at 2; apply bitrev_index_lt).
    rewrite bitrev_index_involutive; [reflexivity | now rewrite <- Hn].
  - rewrite !lookup_ge_None_2 by lia. reflexivity.
Qed.

Lemma BitReverseRoots_twice_witness :
  uint64_range (Z.of_nat (length [0; 1; 2; 3; 4; 5; 6; 7]))
  /\ IsPowerOfTwo (Z.of_nat (length [0; 1; 2; 3; 4; 5; 6; 7])) = true
  /\ exists once,
       BitReverseRoots [0; 1; 2; 3; 4; 5; 6; 7] = Ok once
       /\ BitReverseRoots once = Ok [0; 1; 2; 3; 4; 5; 6; 7].
Proof.
  assert (H1 : uint64_range (Z.of_nat (length [0; 1; 2; 3; 4; 5; 6; 7])))
    by (unfold uint64_range; simpl; lia).
  assert (H2 : IsPowerOfTwo (Z.of_nat (length [0; 1; 2; 3; 4; 5; 6; 7])) = true)
    by reflexivity.
  split; [exact H1 |]. split; [exact H2 |].
  exact (BitReverseRoots_twice [0; 1; 2; 3; 4; 5; 6; 7] H1 H2).
Defined.

(** ** Batch normalisation *)

Section BaseField.

Variable p : Z.
Hypothesis p_prime : Z.prime p.

Lemma p_pos : 1 < p.
Proof. exact (proj1 p_prime). Qed.

Lemma fp_Mul_valid (a b : fp.Element) : fp.valid p (fp.Mul p a b).
Proof. pose proof p_pos. apply Z.mod_pos_bound. lia. Qed.

Lemma fp_Inverse_valid (a : fp.Element) : fp.valid p (fp.Inverse p a).
Proof. pose proof p_pos. apply Z.mod_pos_bound. lia. Qed.

Lemma fp_One_valid : fp.valid p fp.One.
Proof. pose proof p_pos. unfold fp.valid, fp.One. lia. Qed.

Lemma fp_Mul_comm (a b : fp.Element) : fp.Mul p a b = fp.Mul p b a.
Proof. unfold fp.Mul. now rewrite Z.mul_comm. Qed.

Lemma fp_Mul_assoc (a b c : fp.Element) :
  fp.Mul p (fp.Mul p a b) c = fp.Mul p a (fp.Mul p b c).
Proof.
  pose proof p_pos. unfold fp.Mul.
  rewrite Z.mul_mod_idemp_l, Z.mul_mod_idemp_r by lia.
  now rewrite Z.mul_assoc.
Qed.

Lemma fp_Mul_1_l (a : fp.Element) : fp.valid p a -> fp.Mul p fp.One a = a.
Proof.
  intros Ha. unfold fp.Mul, fp.One. rewrite Z.mul_1_l. now apply Z.mod_small.
Qed.

Lemma fp_Mul_0_r (a : fp.Element) : fp.Mul p a fp.Zero = fp.Zero.
Proof. unfold fp.Mul, fp.Zero. rewrite Z.mul_0_r. apply Zmod_0_l. Qed.

Lemma fp_Mul_Inverse (a : fp.Element) :
  fp.valid p a -> a <> 0 -> fp.Mul p a (fp.Inverse p a) = fp.One.
Proof.
  intros Ha Hne. rewrite fp_Mul_comm. unfold fp.Mul, fp.Inverse.
  apply Z.invmod_prime; [exact p_prime |].
  rewrite Z.mod_small; assumption.
Qed.

(** An element has at most one inverse. *)
Lemma fp_inverse_unique (a b c : fp.Element) :
  fp.valid p b -> fp.valid p c ->
  fp.Mul p a b = fp.One -> fp.Mul p a c = fp.One -> b = c.
Proof.
  intros Hb Hc Eb Ec.
  rewrite <- (fp_Mul_1_l b Hb), <- Ec, (fp_Mul_comm _ b), <- fp_Mul_assoc.
  rewrite (fp_Mul_comm b a), Eb. now apply fp_Mul_1_l.
Qed.

Lemma fp_Mul_nonzero (a b : fp.Element) :
  fp.valid p a -> fp.valid p b -> a <> 0 -> b <> 0 -> fp.Mul p a b <> 0.
Proof.
  intros Ha Hb Hane Hbne E. apply Hbne.
  rewrite <- (fp_Mul_1_l b Hb), <- (fp_Mul_Inverse a Ha Hane).
  rewrite (fp_Mul_comm a), fp_Mul_assoc, E. apply fp_Mul_0_r.
Qed.

Lemma IsZero_false (a : fp.Element) : fp.IsZero a = false -> a <> 0.
Proof. unfold fp.IsZero. now intros H%Z.eqb_neq. Qed.

(** The first pass ends on a non-zero product. *)
Lemma batch_products_accumulator (points : list G1Jac) (acc : fp.Element) :
  Forall (G1Jac_valid p) points ->
  fp.valid p acc -> acc <> 0 ->
  fp.valid p (snd (batch_products p acc points))
  /\ snd (batch_products p acc points) <> 0.
Proof.
  intros Hpoints. revert acc.
  induction Hpoints as [| P rest HP _ IH]; intros acc Hacc Hne.
  - simpl. auto.
  - cbn [batch_products]. destruct (fp.IsZero (jacZ P)) eqn:Ez.
    + specialize (IH acc Hacc Hne).
      destruct (batch_products p acc rest). exact IH.
    + specialize (IH (fp.Mul p acc (jacZ P)) (fp_Mul_valid _ _)).
      destruct (batch_products p (fp.Mul p acc (jacZ P)) rest).
      apply IH. apply fp_Mul_nonzero; try assumption.
      * apply HP.
      * now apply IsZero_false.
Qed.

(** The second pass, started from an inverse of the final product, leaves
    at each finite point the inverse of its [Z], and ends on an inverse
    of the product the first pass started from. *)
Lemma batch_inverses_pointwise (points : list G1Jac) (acc accInverse : fp.Element) :
  Forall (G1Jac_valid p) points ->
  fp.valid p accInverse ->
  fp.Mul p (snd (batch_products p acc points)) accInverse = fp.One ->
  let '(invs, accInv) :=
    batch_inverses p points (fst (batch_products p acc points)) accInverse in
  fp.valid p accInv
  /\ fp.Mul p acc accInv = fp.One
  /\ zip_with (batch_affine p) points invs = map (FromJacobian p) points.
Proof.
  intros Hpoints. revert acc.
  induction Hpoints as [| P rest HP _ IH]; intros acc HaccI Hfin.
  - simpl in *. auto.
  - cbn [batch_products] in *. destruct (fp.IsZero (jacZ P)) eqn:Ez.
    + specialize (IH acc HaccI).
      destruct (batch_products p acc rest) as [prods fin].
      cbn [fst snd batch_inverses] in *. specialize (IH Hfin).
      destruct (batch_inverses p rest prods accInverse) as [invs accInv].
      rewrite Ez. destruct IH as (Hv & Hm & Hz).
      split; [exact Hv |]. split; [exact Hm |].
      cbn [zip_with map]. rewrite Hz. f_equal.
      unfold batch_affine, FromJacobian. now rewrite Ez.
    + specialize (IH (fp.Mul p acc (jacZ P)) HaccI).
      destruct (batch_products p (fp.Mul p acc (jacZ P)) rest) as [prods fin].
      cbn [fst snd batch_inverses] in *. specialize (IH Hfin).
      destruct (batch_inverses p rest prods accInverse) as [invs accInv].
      rewrite Ez. destruct IH as (Hv & Hm & Hz).
      split; [apply fp_Mul_valid |].
      split.
      * rewrite (fp_Mul_comm accInv), <- fp_Mul_assoc. exact Hm.
      * cbn [zip_with map]. rewrite Hz. f_equal.
        assert (Ea : fp.Mul p acc accInv = fp.Inverse p (jacZ P)).
        { apply (fp_inverse_unique (jacZ P)).
          - apply fp_Mul_valid.
          - apply fp_Inverse_valid.
          - rewrite <- fp_Mul_assoc, (fp_Mul_comm (jacZ P)). exact Hm.
          - apply fp_Mul_Inverse; [apply HP | now apply IsZero_false]. }
        unfold batch_affine, FromJacobian. now rewrite Ez, Ea.
Qed.

Lemma BatchFromJacobian_map (points : list G1Jac) :
  Forall (G1Jac_valid p) points ->
  BatchFromJacobian p points = map (FromJacobian p) points.
Proof.
  intros Hpoints. unfold BatchFromJacobian.
  pose proof (batch_products_accumulator points fp.One Hpoints fp_One_valid
                ltac:(discriminate)) as [Hfv Hfne].
  pose proof (batch_inverses_pointwise points fp.One
                (fp.Inverse p (snd (batch_products p fp.One points)))
                Hpoints (fp_Inverse_valid _)
                (fp_Mul_Inverse _ Hfv Hfne)) as H.
  destruct (batch_products p fp.One points) as [prods fin].
  cbn [fst snd] in *.
  destruct (batch_inverses p points prods (fp.Inverse p fin)) as [invs accInv].
  apply H.
Qed.

End BaseField.

(** C8. For every batch of Jacobian points, points at infinity included
    wherever they stand, [BatchFromJacobian] returns as many affine points
    as it was given, and the one at each index is the conversion by
    [FromJacobian] of the input point at that index. *)
Theorem BatchFromJacobian_pointwise (p : Z) (points : list G1Jac) :
  Z.prime p ->
  Forall (G1Jac_valid p) points ->
  length (BatchFromJacobian p points) = length points
  /\ forall i : nat,
       BatchFromJacobian p points !! i = FromJacobian p <$> points !! i.
Proof.
  intros Hp Hpoints. rewrite (BatchFromJacobian_map p Hp points Hpoints).
  split.
  - apply length_map.
  - intros i. apply list_lookup_fmap.
Qed.

Lemma prime_13 : Z.prime 13.
Proof.
  split; [lia |]. intros n Hn Hdiv.
  apply Z.mod_divide in Hdiv; [| lia].
  pose proof (forall_below_64
                (fun k => negb ((1 <? k) && (k <? 13) && (13 mod k =? 0)))
                eq_refl n ltac:(lia)) as H.
  cbv beta in H. rewrite Hdiv in H.
  destruct (Z.ltb_spec 1 n); [| lia].
  destruct (Z.ltb_spec n 13); [| lia].
  discriminate H.
Qed.

Lemma BatchFromJacobian_pointwise_witness :
  Z.prime 13
  /\ Forall (G1Jac_valid 13) batch_with_infinities
  /\ (length (BatchFromJacobian 13 batch_with_infinities)
        = length batch_with_infinities
      /\ forall i : nat,
           BatchFromJacobian 13 batch_with_infinities !! i
           = FromJacobian 13 <$> batch_with_infinities !! i).
Proof.
  assert (H : Forall (G1Jac_valid 13) batch_with_infinities)
    by (repeat constructor; simpl; lia).
  split; [exact prime_13 |]. split; [exact H |].
  exact (BatchFromJacobian_pointwise 13 batch_with_infinities prime_13 H).
Defined.

(** ** The scenarios of the test file *)

(** [TestIsPow2], on the two values named by the specification. *)
Example IsPowerOfTwo_1024_1023 :
  IsPowerOfTwo 1024 = true /\ IsPowerOfTwo 1023 = false.
Proof. split; reflexivity. Qed.

(** [TestComputePowersSmoke]: sixteen powers of 123, each the value of
    [Exp]. *)
Example ComputePowers_123_16 :
  ComputePowers (fr.NewElement 123) 16
  = Ok (map (fun i => fr.Exp (fr.NewElement 123) (Z.of_nat i)) (seq 0 16)).
Proof. vm_compute. reflexivity. Qed.

(** [TestComputePowersBaseOne]. *)
Example ComputePowers_base_one :
  ComputePowers fr.One 10 = Ok (replicate 10 fr.One).
Proof. vm_compute. reflexivity. Qed.

(** [TestExponentiate]. *)
Example Pow2_123_16 (Log2_inexact : float64.t -> Z -> float64.t) :
  Pow2 Log2_inexact (fr.NewElement 123) 16 = Ok (fr.Exp (fr.NewElement 123) 16).
Proof. vm_compute. reflexivity. Qed.

(** Whatever the base, the exponent 1 yields the element 1, which is the
    power only for the base 1. *)
Lemma Pow2_exponent_one_off (Log2_inexact : float64.t -> Z -> float64.t)
    (x : fr.Element) :
  fr.valid x -> x <> fr.One ->
  Pow2 Log2_inexact x 1 <> Ok (fr.pow x 1).
Proof.
  intros Hx Hne E. rewrite fr_pow_1 in E by exact Hx.
  apply Hne. change (Ok fr.One = Ok x) in E. now injection E.
Qed.

(** The three-bit reversal of the specification. *)
Example BitReverseRoots_eight :
  BitReverseRoots [0; 1; 2; 3; 4; 5; 6; 7] = Ok [0; 4; 2; 6; 1; 5; 3; 7].
Proof. vm_compute. reflexivity. Qed.

Example BitReverseRoots_three_panics :
  panics (BitReverseRoots [0; 1; 2]) = true.
Proof. reflexivity. Qed.

(** [TestCanonicalEncoding]: the modulus plus 5 decodes to 5 with the flag
    down; 5 itself decodes to 5 with the flag up. *)
Example ReduceCanonical_unreduced :
  ReduceCanonical
    [ "115"; "237"; "167"; "083"; "041"; "157"; "125"; "072";
      "051"; "057"; "216"; "008"; "009"; "161"; "216"; "005";
      "083"; "189"; "164"; "002"; "255"; "254"; "091"; "254";
      "255"; "255"; "255"; "255"; "000"; "000"; "000"; "006" ]%byte
  = (5, false).
Proof. vm_compute. reflexivity. Qed.

Example ReduceCanonical_reduced :
  ReduceCanonical (repeat "000"%byte 31 ++ ["005"%byte]) = (5, true).
Proof. vm_compute. reflexivity. Qed.

(** [TestBatchNormalisation] on the sample batch. *)
Example BatchFromJacobian_sample :
  BatchFromJacobian 13 batch_with_infinities
  = [ {| affX := 3; affY := 2 |}; G1Affine_infinity;
      {| affX := 3; affY := 6 |}; G1Affine_infinity;
      {| affX := 3; affY := 4 |} ].
Proof. vm_compute. reflexivity. Qed.

(** * Further properties of the package *)

(** ** [ComputePowers] beyond the empty case *)

(** For a positive count that [make] accepts, the result in closed form. *)
Lemma ComputePowers_closed (x : fr.Element) (n : Z) :
  1 <= n -> fr.Sizeof * n <= slice.maxAlloc ->
  ComputePowers x n
  = Ok ((fun i => fr.pow x (Z.of_nat i)) <$> seq 0 (Z.to_nat n)).
Proof.
  intros Hn Hfit.
  destruct (ComputePowers_positive x n Hn Hfit) as (powers & E & Hlen & Hall).
  rewrite E. f_equal. apply list_eq. intros j.
  rewrite list_lookup_fmap.
  destruct (Nat.lt_ge_cases j (Z.to_nat n)) as [Hlt | Hge].
  - rewrite lookup_seq_lt by exact Hlt. simpl.
    rewrite <- (Nat2Z.id j) at 1. apply Hall. lia.
  - rewrite lookup_ge_None_2 by lia.
    rewrite lookup_ge_None_2 by (rewrite length_seq; lia). reflexivity.
Qed.

(** A call that returns was given a positive count that [make] accepts. *)
Lemma ComputePowers_Ok_positive (x : fr.Element) (n : Z)
    (powers : list fr.Element) :
  ComputePowers x n = Ok powers -> 1 <= n /\ fr.Sizeof * n <= slice.maxAlloc.
Proof.
  intros E. unfold ComputePowers in E.
  destruct (slice.make fr.Sizeof fr.Zero n) as [s |] eqn:Em; [| discriminate E].
  apply slice_make_Ok_inv in Em as (Hn & Hfit & ->).
  split; [| exact Hfit].
  destruct (Z.eq_dec n 0) as [-> | Hne]; [discriminate E | lia].
Qed.

(** A call that returns has returned the powers. *)
Lemma ComputePowers_Ok_closed (x : fr.Element) (n : Z)
    (powers : list fr.Element) :
  ComputePowers x n = Ok powers ->
  powers = (fun i => fr.pow x (Z.of_nat i)) <$> seq 0 (Z.to_nat n).
Proof.
  intros E. destruct (ComputePowers_Ok_positive x n powers E) as [Hn Hfit].
  rewrite ComputePowers_closed in E by assumption. now injection E.
Qed.

(** X1. Whenever [ComputePowers x n] returns, the count is at least 1, the
    sequence returned has length [n], its element at each index [i] is
    [x^i] (reduced), and index 0 holds the element 1. *)
Theorem ComputePowers_sequence_of_powers (x : fr.Element) (n : Z)
    (powers : list fr.Element) :
  ComputePowers x n = Ok powers ->
  1 <= n
  /\ length powers = Z.to_nat n
  /\ powers !! 0%nat = Some fr.One
  /\ forall i, 0 <= i < n -> powers !! Z.to_nat i = Some (fr.pow x i).
Proof.
  intros E. destruct (ComputePowers_Ok_positive x n powers E) as [Hn Hfit].
  destruct (ComputePowers_positive x n Hn Hfit) as (powers' & E' & Hlen & Hall).
  rewrite E in E'. injection E' as <-.
  repeat split; try assumption. apply (Hall 0). lia.
Qed.

Lemma ComputePowers_sequence_of_powers_witness :
  ComputePowers 5 4 = Ok [1; 5; 25; 125]
  /\ (1 <= 4
      /\ length [1; 5; 25; 125] = Z.to_nat 4
      /\ [1; 5; 25; 125] !! 0%nat = Some fr.One
      /\ forall i, 0 <= i < 4 ->
           [1; 5; 25; 125] !! Z.to_nat i = Some (fr.pow 5 i)).
Proof.
  assert (H : ComputePowers 5 4 = Ok [1; 5; 25; 125]) by reflexivity.
  split; [exact H |].
  exact (ComputePowers_sequence_of_powers 5 4 [1; 5; 25; 125] H).
Defined.

(** X2. [ComputePowers] panics exactly on the counts that are not
    positive and on those that [make] refuses: a negative count, or one
    whose elements exceed the allocator limit, panics in [make]; the count
    0 panics on the write to [powers[0]]; the loop never panics. *)
Theorem ComputePowers_panics_iff (x : fr.Element) (n : Z) :
  (ComputePowers x n = Panicked MakeSliceLenOutOfRange
   <-> n < 0 \/ slice.maxAlloc < fr.Sizeof * n)
  /\ (ComputePowers x n = Panicked (IndexOutOfRange 0 0) <-> n = 0)
  /\ panics (ComputePowers x n)
     = (n <=? 0) || (slice.maxAlloc <? fr.Sizeof * n).
Proof.
  destruct (Z.leb_spec n 0) as [Hle | Hpos];
    destruct (Z.ltb_spec slice.maxAlloc (fr.Sizeof * n)) as [Hbig | Hfit].
  - assert (E : ComputePowers x n = Panicked MakeSliceLenOutOfRange).
    { unfold ComputePowers. rewrite slice_make_Panicked by lia. reflexivity. }
    rewrite E. repeat split; try reflexivity; try discriminate; try lia.
    intros ->. vm_compute in Hbig. discriminate Hbig.
  - destruct (Z.eq_dec n 0) as [-> | Hne].
    + repeat split; try reflexivity; try discriminate; try lia.
    + assert (E : ComputePowers x n = Panicked MakeSliceLenOutOfRange).
      { unfold ComputePowers. rewrite slice_make_Panicked by lia. reflexivity. }
      rewrite E. repeat split; try reflexivity; try discriminate; try lia.
  - assert (E : ComputePowers x n = Panicked MakeSliceLenOutOfRange).
    { unfold ComputePowers. rewrite slice_make_Panicked by lia. reflexivity. }
    rewrite E. repeat split; try reflexivity; try discriminate; try lia.
  - rewrite ComputePowers_closed by lia.
    repeat split; try reflexivity; try discriminate; try lia.
Qed.

(** X3. When [ComputePowers x m] returns, so does [ComputePowers x n] for
    every [1 <= n <= m], with the first [n] elements of the longer
    sequence: asking for more powers never changes the earlier ones. *)
Theorem ComputePowers_prefix (x : fr.Element) (n m : Z)
    (longer : list fr.Element) :
  ComputePowers x m = Ok longer ->
  1 <= n -> n <= m ->
  ComputePowers x n = Ok (take (Z.to_nat n) longer).
Proof.
  intros E Hn Hm.
  destruct (ComputePowers_Ok_positive x m longer E) as [_ Hfit].
  apply ComputePowers_Ok_closed in E as ->.
  rewrite ComputePowers_closed
    by (try exact Hn; unfold fr.Sizeof, fr.Limbs in *; lia).
  f_equal. rewrite <- fmap_take, take_seq. f_equal. f_equal. lia.
Qed.

Lemma ComputePowers_prefix_witness :
  ComputePowers 5 4 = Ok [1; 5; 25; 125]
  /\ 1 <= 2 /\ 2 <= 4
  /\ ComputePowers 5 2 = Ok (take (Z.to_nat 2) [1; 5; 25; 125]).
Proof.
  assert (H : ComputePowers 5 4 = Ok [1; 5; 25; 125]) by reflexivity.
  assert (H1 : 1 <= 2) by lia. assert (H2 : 2 <= 4) by lia.
  split; [exact H |]. split; [exact H1 |]. split; [exact H2 |].
  exact (ComputePowers_prefix 5 2 4 [1; 5; 25; 125] H H1 H2).
Defined.

(** X4. Whatever integer stands for [x], every element that
    [ComputePowers] returns is a canonical field element, and the first is
    the element 1. *)
Theorem ComputePowers_canonical (x : fr.Element) (n : Z)
    (powers : list fr.Element) :
  ComputePowers x n = Ok powers ->
  Forall fr.valid powers /\ head powers = Some fr.One.
Proof.
  intros E.
  destruct (ComputePowers_Ok_positive x n powers E) as [Hn _].
  apply ComputePowers_Ok_closed in E as ->.
  split.
  - apply Forall_fmap, Forall_forall. intros i _. apply fr_pow_valid.
  - replace (Z.to_nat n) with (S (Z.to_nat (n - 1))) by lia. reflexivity.
Qed.

Lemma ComputePowers_canonical_witness :
  ComputePowers 5 4 = Ok [1; 5; 25; 125]
  /\ (Forall fr.valid [1; 5; 25; 125] /\ head [1; 5; 25; 125] = Some fr.One).
Proof.
  assert (H : ComputePowers 5 4 = Ok [1; 5; 25; 125]) by reflexivity.
  split; [exact H | exact (ComputePowers_canonical 5 4 [1; 5; 25; 125] H)].
Defined.

(** X5. Whenever [ComputePowers] on the base 1 returns, it has returned
    [n] copies of the element 1 (the check of [TestComputePowersBaseOne],
    for every count that returns). *)
Theorem ComputePowers_base_one_all_ones (n : Z) (powers : list fr.Element) :
  ComputePowers fr.One n = Ok powers ->
  powers = replicate (Z.to_nat n) fr.One.
Proof.
  intros E. apply ComputePowers_Ok_closed in E as ->.
  apply list_eq. intros j. rewrite list_lookup_fmap.
  destruct (Nat.lt_ge_cases j (Z.to_nat n)) as [Hlt | Hge].
  - rewrite lookup_seq_lt, lookup_replicate_2 by exact Hlt. simpl. f_equal.
    unfold fr.pow, fr.One. now rewrite Z.pow_1_l by lia.
  - rewrite lookup_ge_None_2 by (rewrite length_seq; lia).
    rewrite lookup_ge_None_2 by (rewrite length_replicate; lia). reflexivity.
Qed.

Lemma ComputePowers_base_one_all_ones_witness :
  ComputePowers fr.One 10 = Ok (replicate 10 fr.One)
  /\ replicate 10 fr.One = replicate (Z.to_nat 10) fr.One.
Proof.
  assert (H : ComputePowers fr.One 10 = Ok (replicate 10 fr.One))
    by reflexivity.
  split; [exact H |].
  exact (ComputePowers_base_one_all_ones 10 (replicate 10 fr.One) H).
Defined.

(** X6. For every field element [x], whenever [ComputePowers x n] returns,
    each element of the sequence is [Equal] to the result of the
    independent [Exp] at its index (the check of [TestComputePowersSmoke],
    which therefore passes for every base and every count that returns). *)
Theorem ComputePowers_agrees_with_Exp (x : fr.Element) (n : Z)
    (powers : list fr.Element) :
  fr.valid x ->
  ComputePowers x n = Ok powers ->
  forall (index : nat) (pow : fr.Element),
    powers !! index = Some pow ->
    fr.Equal (fr.Exp x (Z.of_nat index)) pow = true.
Proof.
  intros Hx E index pow Hlook. apply ComputePowers_Ok_closed in E as ->.
  rewrite list_lookup_fmap in Hlook.
  destruct (seq 0 (Z.to_nat n) !! index) as [i |] eqn:Ei; [| discriminate Hlook].
  apply lookup_seq in Ei as [-> _]. simpl in Hlook. injection Hlook as <-.
  rewrite fr_Exp_pow by (assumption || lia). apply Z.eqb_refl.
Qed.

Lemma ComputePowers_agrees_with_Exp_witness :
  fr.valid 5
  /\ ComputePowers 5 4 = Ok [1; 5; 25; 125]
  /\ [1; 5; 25; 125] !! 3%nat = Some 125
  /\ fr.Equal (fr.Exp 5 (Z.of_nat 3)) 125 = true.
Proof.
  assert (H1 : fr.valid 5) by (unfold fr.valid, fr.Modulus; lia).
  assert (H2 : ComputePowers 5 4 = Ok [1; 5; 25; 125]) by reflexivity.
  assert (H3 : [1; 5; 25; 125] !! 3%nat = Some 125) by reflexivity.
  split; [exact H1 |]. split; [exact H2 |]. split; [exact H3 |].
  exact (ComputePowers_agrees_with_Exp 5 4 [1; 5; 25; 125] H1 H2 3%nat 125 H3).
Defined.

(** ** [IsPowerOfTwo] as arithmetic *)

(** X7. A [uint64] value satisfies [IsPowerOfTwo] exactly when it is
    positive and equal to 2 raised to its own binary logarithm. *)
Theorem IsPowerOfTwo_iff_pow2_log2 (v : Z) :
  uint64_range v ->
  IsPowerOfTwo v = true <-> 0 < v /\ v = 2 ^ Z.log2 v.
Proof.
  intros Hv. rewrite (IsPowerOfTwo_pow2 v Hv). split.
  - intros (k & Hk & ->). split.
    + apply Z.pow_pos_nonneg; lia.
    + now rewrite Z.log2_pow2 by lia.
  - intros [Hpos E]. exists (Z.log2 v). split; [| exact E].
    split; [apply Z.log2_nonneg |].
    apply Z.log2_lt_pow2; [exact Hpos | apply Hv].
Qed.

Lemma IsPowerOfTwo_iff_pow2_log2_witness :
  uint64_range 4096
  /\ (IsPowerOfTwo 4096 = true <-> 0 < 4096 /\ 4096 = 2 ^ Z.log2 4096).
Proof.
  assert (H : uint64_range 4096) by (unfold uint64_range; lia).
  split; [exact H | exact (IsPowerOfTwo_iff_pow2_log2 4096 H)].
Defined.

(** X8. The values [2^i - 1] are rejected for every [i] from 2 up to 64
    (the second loop of [TestIsPow2], extended to the largest [uint64]). *)
Theorem IsPowerOfTwo_pow2_minus_one (i : Z) :
  2 <= i <= 64 -> IsPowerOfTwo (2 ^ i - 1) = false.
Proof.
  intros Hi.
  assert (H4 : 2 ^ 2 <= 2 ^ i) by (apply Z.pow_le_mono_r; lia).
  assert (H64 : 2 ^ i <= 2 ^ 64) by (apply Z.pow_le_mono_r; lia).
  assert (Heven : 2 ^ i = 2 * 2 ^ (i - 1)).
  { rewrite <- Z.pow_succ_r by lia. f_equal. lia. }
  destruct (IsPowerOfTwo (2 ^ i - 1)) eqn:E; [exfalso | reflexivity].
  apply IsPowerOfTwo_pow2 in E as (k & Hk & E).
  - destruct (Z.eq_dec k 0) as [-> | Hne].
    + change (2 ^ 0) with 1 in E. change (2 ^ 2) with 4 in H4. lia.
    + assert (2 ^ k = 2 * 2 ^ (k - 1)).
      { rewrite <- Z.pow_succ_r by lia. f_equal. lia. }
      lia.
  - unfold uint64_range. change (2 ^ 2) with 4 in H4. lia.
Qed.

Lemma IsPowerOfTwo_pow2_minus_one_witness :
  2 <= 64 <= 64 /\ IsPowerOfTwo (2 ^ 64 - 1) = false.
Proof.
  assert (H : 2 <= 64 <= 64) by lia.
  split; [exact H | exact (IsPowerOfTwo_pow2_minus_one 64 H)].
Defined.

(** X9. Doubling within [uint64] neither creates nor destroys a power of
    two: for [v >= 1] with [2 * v] representable, [2 * v] and [v] get the
    same answer. *)
Theorem IsPowerOfTwo_double (v : Z) :
  1 <= v -> 2 * v < 2 ^ 64 ->
  IsPowerOfTwo (2 * v) = IsPowerOfTwo v.
Proof.
  intros Hv Hfit. apply eq_true_iff_eq.
  rewrite !IsPowerOfTwo_pow2 by (unfold uint64_range; lia). split.
  - intros (k & Hk & E). destruct (Z.eq_dec k 0) as [-> | Hne].
    + change (2 ^ 0) with 1 in E. lia.
    + exists (k - 1). split; [lia |].
      replace k with (Z.succ (k - 1)) in E by lia.
      rewrite Z.pow_succ_r in E by lia. lia.
  - intros (k & Hk & ->). exists (Z.succ k).
    rewrite Z.pow_succ_r by lia. split; [| reflexivity].
    split; [lia |]. apply (Z.pow_lt_mono_r_iff 2); [lia | lia |].
    rewrite Z.pow_succ_r by lia. exact Hfit.
Qed.

Lemma IsPowerOfTwo_double_witness :
  1 <= 2 ^ 62 /\ 2 * 2 ^ 62 < 2 ^ 64
  /\ IsPowerOfTwo (2 * 2 ^ 62) = IsPowerOfTwo (2 ^ 62).
Proof.
  assert (H1 : 1 <= 2 ^ 62) by lia. assert (H2 : 2 * 2 ^ 62 < 2 ^ 64) by lia.
  split; [exact H1 |]. split; [exact H2 |].
  exact (IsPowerOfTwo_double (2 ^ 62) H1 H2).
Defined.

(** ** [Pow2] as an operation of the field *)

Section Pow2Algebra.

Variable Log2_inexact : float64.t -> Z -> float64.t.

(** From the exponent 2 on, the result in closed form. *)
Lemma Pow2_closed (x : fr.Element) (exp : Z) :
  uint64_range exp -> IsPowerOfTwo exp = true -> 2 <= exp ->
  Pow2 Log2_inexact x exp = Ok (fr.pow x exp).
Proof.
  intros Hrange Hpow Hexp.
  apply IsPowerOfTwo_pow2 in Hpow as (k & Hk & ->); [| exact Hrange].
  assert (1 <= k).
  { destruct (Z.eq_dec k 0) as [-> | Hne]; [simpl in Hexp; lia | lia]. }
  destruct (Pow2_at_pow2 Log2_inexact x k ltac:(lia)) as [Hcall Hloop].
  now rewrite Hcall, Hloop.
Qed.

(** Every power of two of a [uint64] is 1 or at least 2. *)
Lemma pow2_one_or_more (exp : Z) :
  uint64_range exp -> IsPowerOfTwo exp = true -> exp = 1 \/ 2 <= exp.
Proof.
  intros Hrange Hpow. unfold IsPowerOfTwo in Hpow.
  apply andb_true_iff in Hpow as [Hpos _]. apply Z.ltb_lt in Hpos. lia.
Qed.

(** X10. Whatever integer stands for [x], a result returned by [Pow2] is a
    canonical field element. *)
Theorem Pow2_canonical (x : fr.Element) (exp : Z) (r : fr.Element) :
  uint64_range exp ->
  Pow2 Log2_inexact x exp = Ok r ->
  fr.valid r.
Proof.
  intros Hrange E.
  destruct (IsPowerOfTwo exp) eqn:Hpow.
  - destruct (pow2_one_or_more exp Hrange Hpow) as [-> | Hexp].
    + change (Ok fr.One = Ok r) in E. injection E as <-.
      unfold fr.valid, fr.One, fr.Modulus. lia.
    + rewrite Pow2_closed in E by assumption. injection E as <-.
      apply fr_pow_valid.
  - unfold Pow2 in E. rewrite Hpow in E. discriminate E.
Qed.

(** X11. Raising in two steps is raising to the product: for powers of two
    [e1, e2 >= 2] whose product a [uint64] holds,
    [Pow2 (Pow2 x e1) e2 = Pow2 x (e1 * e2)]. *)
Theorem Pow2_compose (x : fr.Element) (e1 e2 : Z) :
  IsPowerOfTwo e1 = true -> IsPowerOfTwo e2 = true ->
  2 <= e1 -> 2 <= e2 -> e1 * e2 < 2 ^ 64 ->
  exists y,
    Pow2 Log2_inexact x e1 = Ok y
    /\ Pow2 Log2_inexact y e2 = Pow2 Log2_inexact x (e1 * e2).
Proof.
  intros H1 H2 Hge1 Hge2 Hfit.
  assert (Hr1 : uint64_range e1) by (unfold uint64_range; nia).
  assert (Hr2 : uint64_range e2) by (unfold uint64_range; nia).
  assert (Hr : uint64_range (e1 * e2)) by (unfold uint64_range; nia).
  assert (Hprod : IsPowerOfTwo (e1 * e2) = true).
  { apply IsPowerOfTwo_pow2; [exact Hr |].
    apply IsPowerOfTwo_pow2 in H1 as (a & Ha & ->); [| exact Hr1].
    apply IsPowerOfTwo_pow2 in H2 as (b & Hb & ->); [| exact Hr2].
    exists (a + b). rewrite <- Z.pow_add_r in * by lia.
    split; [| reflexivity]. split; [lia |].
    apply (Z.pow_lt_mono_r_iff 2); lia. }
  exists (fr.pow x e1). split; [now apply Pow2_closed |].
  rewrite !Pow2_closed by (assumption || nia). f_equal.
  unfold fr.pow. rewrite Z.mod_pow_l, <- Z.pow_mul_r by lia. reflexivity.
Qed.

(** X12. For a power of two [exp >= 2], whenever
    [ComputePowers x (exp + 1)] returns, [Pow2 x exp] returns the element
    at index [exp] of that sequence: squaring [log2 exp] times and
    multiplying [exp] times by [x] meet. *)
Theorem Pow2_meets_ComputePowers (x : fr.Element) (exp : Z)
    (powers : list fr.Element) :
  uint64_range exp -> IsPowerOfTwo exp = true -> 2 <= exp ->
  ComputePowers x (exp + 1) = Ok powers ->
  exists r,
    Pow2 Log2_inexact x exp = Ok r
    /\ powers !! Z.to_nat exp = Some r.
Proof.
  intros Hrange Hpow Hexp E.
  apply ComputePowers_Ok_closed in E as ->.
  exists (fr.pow x exp). split; [now apply Pow2_closed |].
  rewrite list_lookup_fmap, lookup_seq_lt by lia. simpl.
  f_equal. f_equal. lia.
Qed.

(** X13. [Pow2] commutes with the product of the field: for every power
    of two [exp] of a [uint64], the exponent 1 included,
    [Pow2 (x * y) exp = Pow2 x exp * Pow2 y exp]. *)
Theorem Pow2_Mul (x y : fr.Element) (exp : Z) :
  uint64_range exp -> IsPowerOfTwo exp = true ->
  exists rx ry,
    Pow2 Log2_inexact x exp = Ok rx
    /\ Pow2 Log2_inexact y exp = Ok ry
    /\ Pow2 Log2_inexact (fr.Mul x y) exp = Ok (fr.Mul rx ry).
Proof.
  intros Hrange Hpow.
  destruct (pow2_one_or_more exp Hrange Hpow) as [-> | Hexp].
  - exists fr.One, fr.One. repeat split.
  - exists (fr.pow x exp), (fr.pow y exp).
    rewrite !Pow2_closed by assumption. repeat split. f_equal.
    unfold fr.Mul, fr.pow.
    rewrite Z.mod_pow_l, Z.pow_mul_l.
    now rewrite <- Z.mul_mod by (intros E; discriminate E).
Qed.

End Pow2Algebra.

Lemma Pow2_canonical_witness :
  uint64_range 16
  /\ Pow2 (fun _ _ => S754_nan) 123 16 = Ok 2744617215013444842248723242420161
  /\ fr.valid 2744617215013444842248723242420161.
Proof.
  assert (H1 : uint64_range 16) by (unfold uint64_range; lia).
  assert (H2 : Pow2 (fun _ _ => S754_nan) 123 16
               = Ok 2744617215013444842248723242420161) by reflexivity.
  split; [exact H1 |]. split; [exact H2 |].
  exact (Pow2_canonical (fun _ _ => S754_nan) 123 16 _ H1 H2).
Defined.

Lemma Pow2_compose_witness :
  IsPowerOfTwo 4 = true /\ IsPowerOfTwo 8 = true
  /\ 2 <= 4 /\ 2 <= 8 /\ 4 * 8 < 2 ^ 64
  /\ exists y,
       Pow2 (fun _ _ => S754_nan) 3 4 = Ok y
       /\ Pow2 (fun _ _ => S754_nan) y 8 = Pow2 (fun _ _ => S754_nan) 3 (4 * 8).
Proof.
  assert (H1 : IsPowerOfTwo 4 = true) by reflexivity.
  assert (H2 : IsPowerOfTwo 8 = true) by reflexivity.
  assert (H3 : 2 <= 4) by lia. assert (H4 : 2 <= 8) by lia.
  assert (H5 : 4 * 8 < 2 ^ 64) by lia.
  repeat (split; [assumption |]).
  exact (Pow2_compose (fun _ _ => S754_nan) 3 4 8 H1 H2 H3 H4 H5).
Defined.

Lemma Pow2_meets_ComputePowers_witness :
  uint64_range 4 /\ IsPowerOfTwo 4 = true /\ 2 <= 4
  /\ ComputePowers 5 (4 + 1) = Ok [1; 5; 25; 125; 625]
  /\ exists r,
       Pow2 (fun _ _ => S754_nan) 5 4 = Ok r
       /\ [1; 5; 25; 125; 625] !! Z.to_nat 4 = Some r.
Proof.
  assert (H1 : uint64_range 4) by (unfold uint64_range; lia).
  assert (H2 : IsPowerOfTwo 4 = true) by reflexivity.
  assert (H3 : 2 <= 4) by lia.
  assert (H4 : ComputePowers 5 (4 + 1) = Ok [1; 5; 25; 125; 625])
    by reflexivity.
  repeat (split; [assumption |]).
  exact (Pow2_meets_ComputePowers (fun _ _ => S754_nan) 5 4
           [1; 5; 25; 125; 625] H1 H2 H3 H4).
Defined.

Lemma Pow2_Mul_witness :
  uint64_range 8 /\ IsPowerOfTwo 8 = true
  /\ exists rx ry,
       Pow2 (fun _ _ => S754_nan) 3 8 = Ok rx
       /\ Pow2 (fun _ _ => S754_nan) 5 8 = Ok ry
       /\ Pow2 (fun _ _ => S754_nan) (fr.Mul 3 5) 8 = Ok (fr.Mul rx ry).
Proof.
  assert (H1 : uint64_range 8) by (unfold uint64_range; lia).
  assert (H2 : IsPowerOfTwo 8 = true) by reflexivity.
  repeat (split; [assumption |]).
  exact (Pow2_Mul (fun _ _ => S754_nan) 3 5 8 H1 H2).
Defined.

(** ** The helpers of the test file *)

Lemma randomScalars_loop_indices (steps i : nat) (res : list fr.Element) :
  length res = (i + steps)%nat ->
  (forall j, (j < i)%nat -> res !! j = Some (fr.NewElement (Z.of_nat j))) ->
  exists out,
    randomScalars_loop steps i res = Ok out
    /\ length out = (i + steps)%nat
    /\ forall j, (j < i + steps)%nat ->
         out !! j = Some (fr.NewElement (Z.of_nat j)).
Proof.
  revert i res. induction steps as [| steps IH]; intros i res Hlen Hinv.
  - exists res. simpl. rewrite Nat.add_0_r in *. auto.
  - simpl. rewrite slice_set_lt by lia. simpl.
    destruct (IH (S i) (<[i := fr.NewElement (Z.of_nat i)]> res))
      as (out & Hout & Hlen' & Hall).
    + rewrite length_insert. lia.
    + intros j Hj. destruct (decide (j = i)) as [-> | Hne].
      * now rewrite list_lookup_insert_eq by lia.
      * rewrite list_lookup_insert_ne by congruence. apply Hinv. lia.
    + exists out. split; [exact Hout |]. split; [lia |].
      intros j Hj. apply Hall. lia.
Qed.

(** A call that returns has returned the residues of the indices. *)
Lemma randomScalars_Ok (size : Z) (res : list fr.Element) :
  randomScalars size = Ok res ->
  0 <= size /\ fr.Sizeof * size <= slice.maxAlloc
  /\ res = (fun i => fr.NewElement (Z.of_nat i)) <$> seq 0 (Z.to_nat size).
Proof.
  intros E. unfold randomScalars in E.
  destruct (slice.make fr.Sizeof fr.Zero size) as [s |] eqn:Em;
    [| discriminate E].
  apply slice_make_Ok_inv in Em as (Hsize & Hfit & ->).
  split; [exact Hsize |]. split; [exact Hfit |]. simpl in E.
  destruct (randomScalars_loop_indices (Z.to_nat size) 0
              (replicate (Z.to_nat size) fr.Zero))
    as (out & Hout & Hlen & Hall).
  - now rewrite length_replicate.
  - intros j Hj. lia.
  - rewrite Hout in E. injection E as <-.
    apply list_eq. intros j. rewrite list_lookup_fmap.
    destruct (Nat.lt_ge_cases j (Z.to_nat size)) as [Hlt | Hge].
    + rewrite Hall, lookup_seq_lt by lia. reflexivity.
    + rewrite lookup_ge_None_2 by lia.
      rewrite lookup_ge_None_2 by (rewrite length_seq; lia). reflexivity.
Qed.

(** X14. Whenever [randomScalars size] returns, it has returned the
    scalars [0, 1, ..., size - 1] in order (none for the size 0); they are
    pairwise distinct, so a misplaced element cannot go unnoticed. *)
Theorem randomScalars_indices (size : Z) (res : list fr.Element) :
  randomScalars size = Ok res ->
  res = Z.of_nat <$> seq 0 (Z.to_nat size) /\ NoDup res.
Proof.
  intros E. apply randomScalars_Ok in E as (Hsize & Hfit & ->).
  assert (E : (fun i => fr.NewElement (Z.of_nat i)) <$> seq 0 (Z.to_nat size)
              = Z.of_nat <$> seq 0 (Z.to_nat size)).
  { apply list_fmap_ext. intros j i Hi. apply lookup_seq in Hi as [-> Hlt].
    unfold fr.NewElement. apply Z.mod_small.
    unfold fr.Sizeof, fr.Limbs, slice.maxAlloc, fr.Modulus in *. lia. }
  rewrite E. split; [reflexivity |].
  apply (NoDup_fmap_2 Z.of_nat), NoDup_seq.
Qed.

Lemma randomScalars_indices_witness :
  randomScalars 8 = Ok [0; 1; 2; 3; 4; 5; 6; 7]
  /\ ([0; 1; 2; 3; 4; 5; 6; 7] = Z.of_nat <$> seq 0 (Z.to_nat 8)
      /\ NoDup [0; 1; 2; 3; 4; 5; 6; 7]).
Proof.
  assert (H : randomScalars 8 = Ok [0; 1; 2; 3; 4; 5; 6; 7]) by reflexivity.
  split; [exact H |].
  exact (randomScalars_indices 8 [0; 1; 2; 3; 4; 5; 6; 7] H).
Defined.

(** X15. On a field element drawn by [SetRandom], [randReducedBigInt] does
    not panic and returns its value; [addModP] of that value is no longer
    below the modulus, still fits the 32 bytes of the canonical width, and
    reduces back to the value. *)
Theorem addModP_unreduced (randFr : fr.Element) :
  fr.valid randFr ->
  randReducedBigInt randFr = Ok randFr
  /\ fr.Modulus <= addModP randFr < 256 ^ Z.of_nat fr_Bytes
  /\ addModP randFr mod fr.Modulus = randFr.
Proof.
  intros Hx. unfold fr.valid in Hx. split; [| split].
  - unfold randReducedBigInt.
    destruct (Z.ltb_spec randFr fr.Modulus); [reflexivity | lia].
  - unfold addModP, fr_Bytes. unfold fr.Modulus in *. simpl. lia.
  - unfold addModP.
    rewrite <- (Z.mul_1_l fr.Modulus) at 1.
    rewrite Z.mod_add by (intros E; discriminate E).
    now apply Z.mod_small.
Qed.

Lemma addModP_unreduced_witness :
  fr.valid 5
  /\ (randReducedBigInt 5 = Ok 5
      /\ fr.Modulus <= addModP 5 < 256 ^ Z.of_nat fr_Bytes
      /\ addModP 5 mod fr.Modulus = 5).
Proof.
  assert (H : fr.valid 5) by (unfold fr.valid, fr.Modulus; lia).
  split; [exact H | exact (addModP_unreduced 5 H)].
Defined.

(** X16. For every reduced [x], the buffer [unreducedBytes] that
    [TestCanonicalEncoding] builds from [x + modulus] has exactly the
    canonical width of 32 bytes, [SetBytes] reads it back as [x], and it
    differs from the canonical bytes of that element: the first check of
    the test can never fire. *)
Theorem unreducedBytes_properties (x : Z) :
  fr.valid x ->
  length (big_Bytes (addModP x)) = fr_Bytes
  /\ fr_SetBytes (big_Bytes (addModP x)) = x
  /\ big_Bytes (addModP x)
     <> fr_Element_Bytes (fr_SetBytes (big_Bytes (addModP x))).
Proof.
  intros Hx. unfold fr.valid in Hx.
  assert (Hlow : 2 ^ 254 <= addModP x)
    by (unfold addModP, fr.Modulus in *; lia).
  assert (Hhigh : addModP x < 2 ^ 256)
    by (unfold addModP, fr.Modulus in *; lia).
  assert (Hlog : 254 <= Z.log2 (addModP x) < 256).
  { split; [apply Z.log2_le_pow2 | apply Z.log2_lt_pow2]; lia. }
  assert (Hlen : big_Bytes (addModP x) = be_bytes 32 (addModP x)).
  { unfold big_Bytes. destruct (Z.eqb_spec (addModP x) 0) as [E | _]; [lia |].
    f_equal. assert (Z.log2 (addModP x) / 8 = 31) as ->; [| reflexivity].
    symmetry. apply Z.div_unique with (r := Z.log2 (addModP x) - 248); lia. }
  assert (Hval : big.SetBytes (big_Bytes (addModP x)) = addModP x).
  { rewrite Hlen, big_SetBytes_be_bytes. apply Z.mod_small.
    change (256 ^ Z.of_nat 32) with (2 ^ 256). lia. }
  assert (Hset : fr_SetBytes (big_Bytes (addModP x)) = x).
  { unfold fr_SetBytes. rewrite Hval. unfold addModP.
    rewrite <- (Z.mul_1_l fr.Modulus) at 1.
    rewrite Z.mod_add by (intros E; discriminate E).
    now apply Z.mod_small. }
  split; [rewrite Hlen; apply be_bytes_length |].
  split; [exact Hset |].
  rewrite Hset. intros E. apply (f_equal big.SetBytes) in E.
  unfold fr_Element_Bytes in E.
  rewrite Hval, big_SetBytes_be_bytes in E.
  rewrite Z.mod_small in E.
  - unfold addModP, fr.Modulus in E. lia.
  - unfold fr_Bytes. change (256 ^ Z.of_nat 32) with (2 ^ 256).
    unfold fr.Modulus in Hx. lia.
Qed.

Lemma unreducedBytes_properties_witness :
  fr.valid 5
  /\ (length (big_Bytes (addModP 5)) = fr_Bytes
      /\ fr_SetBytes (big_Bytes (addModP 5)) = 5
      /\ big_Bytes (addModP 5)
         <> fr_Element_Bytes (fr_SetBytes (big_Bytes (addModP 5)))).
Proof.
  assert (H : fr.valid 5) by (unfold fr.valid, fr.Modulus; lia).
  split; [exact H | exact (unreducedBytes_properties 5 H)].
Defined.
